(** * newsbot: retrieval, ranking, embedding fallback, cache and session log

    A shallow embedding of [src/lib/embeddings.ts] and of the code held in
    [src/lib/redis.ts] (the Redis client wrapper, the session log, the
    search cache and the vector store), with the properties of the
    specification stated and settled against it.

    Modelling conventions.
    - The arithmetic of a JavaScript [number] is read over the real numbers
      ([R]): rounding, overflow and underflow of binary64 are not part of
      these definitions.  What does not depend on rounding is kept: a
      publication date that is no date makes every number computed from it
      [NaN], and the division that [createDeterministicEmbedding] does not
      guard yields [NaN] and the infinities the way JavaScript does.
      [cosineSimilarity] is given a second time over binary64
      ([cosineSimilarity64], on the kernel's floating-point numbers), where
      the difference matters.
    - A text is the sequence of its bytes (a Rocq [string]).  The code
      that reads UTF-16 code units ([charCodeAt] in [hashString]) and the
      string helpers ([toLowerCase], [split_ws], [includes]) are exact on
      texts of 7-bit characters, where code units and bytes are the same
      numbers; on other texts [hashString] here hashes the bytes.
    - Module-level mutable variables of the source ([redisClient],
      [redisDisabled], [embeddingCache], ...) are fields of an explicit state
      that every operation receives and returns.
    - Calls that leave the process (the Redis REST calls, the embedding
      provider, the file system, the clock, the environment) are arguments
      that give the outcome of the call.  The Redis client is the one that
      [new Redis({ url, token })] of [@upstash/redis] builds: it sends a
      string as it is and tries [JSON.parse] on every string it reads,
      handing the parsed value to the caller when that works and the string
      itself when it does not.
    - Calls run one after the other: the interleaving of concurrent
      requests and the expiry of keys with time are not modelled. *)

From Stdlib Require Import Floats.
From Stdlib Require Import Reals Lra Lia ZArith List String Ascii Bool.
From Stdlib Require Import Permutation Sorted.
From stdpp Require Import gmap strings.
Import ListNotations.

#[local] Set Warnings "-inexact-float".

(** ** JavaScript values *)

Module Js.

(** A JavaScript number whose finite values are read as real numbers. *)
Inductive number : Type :=
  | Finite (r : R)
  | NaN
  | PosInfinity
  | NegInfinity.

(** [x / y] for two finite numbers. *)
Definition js_div (x y : R) : number :=
  if Req_dec_T y 0 then
    if Req_dec_T x 0 then NaN
    else if Rlt_dec 0 x then PosInfinity else NegInfinity
  else Finite (x / y).

Definition is_finite (n : number) : Prop :=
  match n with Finite _ => True | _ => False end.

(** [x > y] on finite numbers, as a boolean. *)
Definition gtb (x y : R) : bool := if Rlt_dec y x then true else false.

Lemma gtb_true x y : gtb x y = true <-> (y < x)%R.
Proof. unfold gtb. destruct (Rlt_dec y x); split; intros; try done. Qed.

Lemma gtb_false x y : gtb x y = false <-> (x <= y)%R.
Proof.
  unfold gtb. destruct (Rlt_dec y x); split; intros; try done; lra.
Qed.

(** [x + y] *)
Definition js_add (x y : number) : number :=
  match x, y with
  | Finite a, Finite b => Finite (a + b)
  | NaN, _ | _, NaN => NaN
  | PosInfinity, NegInfinity | NegInfinity, PosInfinity => NaN
  | PosInfinity, _ | _, PosInfinity => PosInfinity
  | NegInfinity, _ | _, NegInfinity => NegInfinity
  end.

(** [- x] *)
Definition js_neg (x : number) : number :=
  match x with
  | Finite a => Finite (- a)
  | NaN => NaN
  | PosInfinity => NegInfinity
  | NegInfinity => PosInfinity
  end.

(** [x - y] *)
Definition js_sub (x y : number) : number := js_add x (js_neg y).

(** [x / y] for a finite divisor [y]. *)
Definition js_div_by (x : number) (y : R) : number :=
  match x with
  | Finite a => js_div a y
  | NaN => NaN
  | PosInfinity => if Rlt_dec y 0 then NegInfinity else PosInfinity
  | NegInfinity => if Rlt_dec y 0 then PosInfinity else NegInfinity
  end.

(** [x > y]: false as soon as one side is [NaN]. *)
Definition js_gt (x y : number) : bool :=
  match x, y with
  | Finite a, Finite b => gtb a b
  | NaN, _ | _, NaN => false
  | PosInfinity, PosInfinity => false
  | PosInfinity, _ => true
  | _, NegInfinity => match x with NegInfinity => false | _ => true end
  | _, _ => false
  end.

(** [x <= y] as a proposition: it does not hold when one side is [NaN]. *)
Definition number_le (x y : number) : Prop :=
  match x, y with
  | Finite a, Finite b => (a <= b)%R
  | NaN, _ | _, NaN => False
  | NegInfinity, _ => True
  | _, PosInfinity => True
  | _, _ => False
  end.

Definition number_eqb (x y : number) : bool :=
  match x, y with
  | Finite a, Finite b => if Req_dec_T a b then true else false
  | NaN, NaN | PosInfinity, PosInfinity | NegInfinity, NegInfinity => true
  | _, _ => false
  end.

Lemma number_eqb_eq x y : number_eqb x y = true <-> x = y.
Proof.
  destruct x as [a| | |], y as [b| | |]; simpl; try (split; congruence).
  destruct (Req_dec_T a b); split; congruence.
Qed.

Lemma number_eqb_refl x : number_eqb x x = true.
Proof. by apply number_eqb_eq. Qed.

(** *** Strings *)

Definition is_upper (c : ascii) : bool :=
  (65 <=? nat_of_ascii c)%nat && (nat_of_ascii c <=? 90)%nat.

Definition lower_ascii (c : ascii) : ascii :=
  if is_upper c then ascii_of_nat (nat_of_ascii c + 32) else c.

(** [s.toLowerCase()] *)
Fixpoint toLowerCase (s : string) : string :=
  match s with
  | EmptyString => EmptyString
  | String c s' => String (lower_ascii c) (toLowerCase s')
  end.

(** The class [\s] restricted to ASCII: TAB, LF, VT, FF, CR and space. *)
Definition is_ws (c : ascii) : bool :=
  let n := nat_of_ascii c in
  ((9 <=? n)%nat && (n <=? 13)%nat) || (n =? 32)%nat.

(** [s.split(/\s+/)]: [cur] is the piece being read, [in_gap] tells that the
    previous character belonged to a separator. *)
Fixpoint split_ws_from (cur : string) (in_gap : bool) (s : string)
  : list string :=
  match s with
  | EmptyString => [cur]
  | String c s' =>
      if is_ws c then
        if in_gap then split_ws_from cur true s'
        else cur :: split_ws_from EmptyString true s'
      else split_ws_from (cur +:+ String c EmptyString) false s'
  end.

Definition split_ws (s : string) : list string :=
  split_ws_from EmptyString false s.

(** [s.includes(sub)] *)
Fixpoint includes (s sub : string) : bool :=
  String.prefix sub s ||
  match s with
  | EmptyString => false
  | String _ s' => includes s' sub
  end.

(** [s.substring(0, n)] for [0 <= n]. *)
Fixpoint substring0 (n : nat) (s : string) : string :=
  match n, s with
  | S n', String c s' => String c (substring0 n' s')
  | _, _ => EmptyString
  end.

(** *** JSON *)

(** A JSON value (numbers restricted to integers). *)
#[local] Unset Elimination Schemes.
Inductive Json : Type :=
  | JNull
  | JBool (b : bool)
  | JNumber (z : Z)
  | JString (s : string)
  | JArray (items : list Json)
  | JObject (fields : list (string * Json)).
#[local] Set Elimination Schemes.

(** [Boolean(v)] *)
Definition truthy (v : Json) : bool :=
  match v with
  | JNull => false
  | JBool b => b
  | JNumber z => negb (z =? 0)%Z
  | JString s => negb (String.eqb s "")
  | JArray _ | JObject _ => true
  end.

(** A persisted text, known by what [JSON.parse] makes of it: the value it
    denotes, or a [SyntaxError]. *)
Inductive Text (A : Type) : Type :=
  | Wellformed (value : A)
  | Malformed (raw : string).
Arguments Wellformed {A} value.
Arguments Malformed {A} raw.

(** [JSON.parse(t)]; [None] is the thrown [SyntaxError]. *)
Definition JSON_parse {A} (t : Text A) : option A :=
  match t with
  | Wellformed value => Some value
  | Malformed _ => None
  end.

Definition JSON_stringify {A} (value : A) : Text A := Wellformed value.

(** [JSON.parse(v as string)] on a value [v] that is not a text any more:
    the value is turned into a string first and the string is parsed.  An
    object becomes [[object Object]] and an empty array the empty string,
    which are no JSON; an array joins the strings of its elements with
    commas, so one that starts with an object is no JSON either; [null], a
    boolean and a number become their own JSON text.  What the text of a
    string, or of an array that starts otherwise, parses to is left to
    [parseString] (the engine's [JSON.parse] on that text). *)
Definition JSON_parse_value (parseString : Json -> option Json) (v : Json)
  : option Json :=
  match v with
  | JNull | JBool _ | JNumber _ => Some v
  | JObject _ => None
  | JArray [] => None
  | JArray (JObject _ :: _) => None
  | JString _ | JArray _ => parseString v
  end.

(** [JSON.parse] of a text that holds an array, given the texts of its
    elements: one syntax error anywhere makes the whole call throw. *)
Fixpoint JSON_parse_array {A} (elements : list (Text A)) : option (list A) :=
  match elements with
  | [] => Some []
  | element :: rest =>
      match JSON_parse element, JSON_parse_array rest with
      | Some value, Some values => Some (value :: values)
      | _, _ => None
      end
  end.

Example split_ws_gaps :
  split_ws " Gaza  news " = [""; "Gaza"; "news"; ""]%string.
Proof. reflexivity. Qed.

Example split_ws_empty : split_ws "" = [""%string].
Proof. reflexivity. Qed.

Example toLowerCase_mixed : toLowerCase "BBC News 24" = "bbc news 24"%string.
Proof. reflexivity. Qed.

Example includes_inside : includes "newsroom" "sro" = true.
Proof. reflexivity. Qed.

Example includes_empty : includes "" "" = true.
Proof. reflexivity. Qed.

Lemma split_ws_from_nonempty cur g s : split_ws_from cur g s <> [].
Proof.
  revert cur g. induction s as [|c s IH]; intros cur g; simpl; [done|].
  destruct (is_ws c); [destruct g|]; auto; done.
Qed.

Lemma split_ws_length s : (1 <= length (split_ws s))%nat.
Proof.
  pose proof (split_ws_from_nonempty EmptyString false s) as H.
  unfold split_ws. destruct (split_ws_from _ _ _); [done|simpl; lia].
Qed.

End Js.

(** ** The vector store (the second file held in [src/lib/redis.ts]) *)

Module VectorStore.
Import Js.
Local Open Scope R_scope.

Record Metadata : Type := {
  title : string;
  source : string;
  link : string;
  (** The string [pubDate] as [new Date(pubDate)] reads it: the time value
      in milliseconds, or [None] when the string is no date (the empty
      string that the ingestion script writes for an item without a date
      is none). *)
  pubDate : option Z;
  chunkIndex : Z
}.

Record EmbeddedChunk : Type := {
  chunk_id : string;
  text : string;
  embedding : list R;
  metadata : Metadata
}.

(** [interface SearchResult extends EmbeddedChunk]. *)
Record SearchResult : Type := {
  chunk : EmbeddedChunk;
  similarity : R;
  relevanceScore : number
}.

(** *** [loadEmbeddedChunks] *)

(** The module-level variables [embeddedChunks] and
    [embeddedWarningLogged]. *)
Record Loader : Type := {
  embeddedChunks : option (list EmbeddedChunk);
  embeddedWarningLogged : bool
}.

Definition warned (st : Loader) : Loader :=
  {| embeddedChunks := embeddedChunks st; embeddedWarningLogged := true |}.

(** What [readFileSync] finds at the path of the corpus.  A JSON text
    whose value is neither an array of chunk records nor falsy is left out:
    the declared type [EmbeddedChunk[] | null] of the variable has no place
    for it. *)
Inductive CorpusFile : Type :=
  | Unreadable
      (* [readFileSync] throws: there is no such file *)
  | Records (records : list (Text EmbeddedChunk))
      (* the text of an array, given by the texts of its elements *)
  | FalsyValue.
      (* the text of [null], [false], [0] or of the empty string *)

(** A falsy value is assigned to [embeddedChunks] like any other; the next
    call finds the variable falsy and reads the file again, so the state
    keeps [None] for it. *)
Definition loadEmbeddedChunks (file : CorpusFile) (st : Loader)
  : list EmbeddedChunk * Loader :=
  match embeddedChunks st with
  | Some chunks => (chunks, st)
  | None =>
      match file with
      | Records records =>
          match JSON_parse_array records with
          | Some chunks =>
              (chunks,
               {| embeddedChunks := Some chunks;
                  embeddedWarningLogged := embeddedWarningLogged st |})
          | None => ([], warned st)
          end
      | FalsyValue => ([], st)
      | Unreadable => ([], warned st)
      end
  end.

(** *** [cosineSimilarity] *)

(** [vecA.reduce((sum, a, i) => sum + a * vecB[i], 0)], for two vectors of
    the same length. *)
Definition dotProduct (vecA vecB : list R) : R :=
  fold_left (fun sum ab => sum + fst ab * snd ab) (combine vecA vecB) 0.

(** [Math.sqrt(vec.reduce((sum, a) => sum + a * a, 0))] *)
Definition magnitude (vec : list R) : R :=
  sqrt (fold_left (fun sum a => sum + a * a) vec 0).

Definition cosineSimilarity (vecA vecB : list R) : R :=
  if negb (length vecA =? length vecB)%nat then 0
  else
    let dot := dotProduct vecA vecB in
    let magnitudeA := magnitude vecA in
    let magnitudeB := magnitude vecB in
    if Req_dec_T magnitudeA 0 then 0
    else if Req_dec_T magnitudeB 0 then 0
    else dot / (magnitudeA * magnitudeB).




(** *** [calculateRelevanceScore] *)

Definition msPerDay : R := 1000 * 60 * 60 * 24.

(** [queryWords.filter(word => titleWords.some(titleWord =>
    titleWord.includes(word)))] *)
Definition titleMatches (queryWords titleWords : list string) : list string :=
  List.filter
    (fun word => existsb (fun titleWord => includes titleWord word) titleWords)
    queryWords.

Definition titleScore (query ttl : string) : R :=
  let queryWords := split_ws (toLowerCase query) in
  let titleWords := split_ws (toLowerCase ttl) in
  INR (length (titleMatches queryWords titleWords)) / INR (length queryWords).

(** The recency term for a publication time that is a number. *)
Definition recencyScore (now pub : Z) : R :=
  let daysDiff := IZR (now - pub) / msPerDay in
  Rmax 0 (1 - daysDiff / 30).

(** [now] is the value of [new Date().getTime()] at the call.  With a
    [pubDate] that is no date, [pubDate.getTime()] is [NaN] and so are
    [daysDiff], [Math.max(0, ...)], every later value of [score] and
    [Math.min(score, 1)]. *)
Definition calculateRelevanceScore
    (now : Z) (c : EmbeddedChunk) (query : string) (sim : R) : number :=
  match pubDate (metadata c) with
  | None => NaN
  | Some pub =>
      let score := sim * 0.7 in
      let score := score + recencyScore now pub * 0.2 in
      let score := score + titleScore query (title (metadata c)) * 0.1 in
      Finite (Rmin score 1)
  end.

(** *** [searchSimilarChunks] *)

(** [Array.prototype.sort] with a comparator: a stable sort, where
    [compareFn a b > 0] puts [b] before [a] and a result that is [NaN]
    counts as 0.  The algorithm is left to the engine.  When every score
    is a number, every stable sort returns the same array
    ([js_sort_is_the_stable_sort] below), and insertion from the right is
    one of them.  When a score is [NaN] the comparator orders nothing
    against it and the language leaves the order to the engine: insertion
    then keeps such a pair in the order it finds it, the way the sort of
    Node does on short arrays.  What is stated of the order of a ranking
    is stated for scores that are all numbers. *)
Section Sort.
Context {A : Type} (compareFn : A -> A -> number).

Fixpoint sort_insert (x : A) (l : list A) : list A :=
  match l with
  | [] => [x]
  | y :: l' =>
      if js_gt (compareFn x y) (Finite 0) then y :: sort_insert x l'
      else x :: y :: l'
  end.

Fixpoint js_sort (l : list A) : list A :=
  match l with
  | [] => []
  | x :: l' => sort_insert x (js_sort l')
  end.

End Sort.

(** [(a, b) => b.relevanceScore - a.relevanceScore] *)
Definition byRelevanceDesc (a b : SearchResult) : number :=
  js_sub (relevanceScore b) (relevanceScore a).

(** The body of [chunks.map((chunk) => ...)]. *)
Definition scoreChunk
    (now : Z) (queryEmbedding : list R) (query : string) (c : EmbeddedChunk)
  : SearchResult :=
  let sim := cosineSimilarity queryEmbedding (embedding c) in
  {| chunk := c;
     similarity := sim;
     relevanceScore := calculateRelevanceScore now c query sim |}.

(** [chunks] is what [loadEmbeddedChunks()] returned, [queryEmbedding] what
    [await createEmbedding(query)] returned, [topK] a count. *)
Definition searchSimilarChunks
    (chunks : list EmbeddedChunk) (now : Z) (queryEmbedding : list R)
    (query : string) (topK : nat) : list SearchResult :=
  match chunks with
  | [] => []
  | _ =>
      let results := map (scoreChunk now queryEmbedding query) chunks in
      List.filter (fun result => gtb (similarity result) 0.1)
        (firstn topK (js_sort byRelevanceDesc results))
  end.


(** *** Sums behind [reduce] *)

Definition sumsq (vec : list R) : R :=
  fold_left (fun sum a => sum + a * a) vec 0.

Lemma fold_sumsq_acc (vec : list R) (acc : R) :
  fold_left (fun sum a => sum + a * a) vec acc = acc + sumsq vec.
Proof.
  unfold sumsq. revert acc.
  induction vec as [|x vec IH]; intros acc; simpl; [lra|].
  rewrite (IH (acc + x * x)), (IH (0 + x * x)). lra.
Qed.

Lemma sumsq_cons x vec : sumsq (x :: vec) = x * x + sumsq vec.
Proof. unfold sumsq at 1. simpl. rewrite fold_sumsq_acc. lra. Qed.

Lemma sumsq_nonneg vec : 0 <= sumsq vec.
Proof.
  induction vec as [|x vec IH]; [unfold sumsq; simpl; lra|].
  rewrite sumsq_cons. nra.
Qed.

Lemma fold_dot_acc (l : list (R * R)) (acc : R) :
  fold_left (fun sum ab => sum + fst ab * snd ab) l acc
  = acc + fold_left (fun sum ab => sum + fst ab * snd ab) l 0.
Proof.
  revert acc. induction l as [|p l IH]; intros acc; simpl; [lra|].
  rewrite (IH (acc + _)), (IH (0 + _)). lra.
Qed.

Lemma dotProduct_cons x y a b :
  dotProduct (x :: a) (y :: b) = x * y + dotProduct a b.
Proof. unfold dotProduct. simpl. rewrite fold_dot_acc. lra. Qed.



Lemma magnitude_sqr vec : magnitude vec * magnitude vec = sumsq vec.
Proof. apply sqrt_sqrt, sumsq_nonneg. Qed.


Lemma sumsq_zero_iff vec : sumsq vec = 0 <-> Forall (fun x => x = 0) vec.
Proof.
  induction vec as [|x vec IH].
  - split; [constructor|reflexivity].
  - rewrite sumsq_cons. pose proof (sumsq_nonneg vec). split.
    + intros H0. constructor; [nra|]. apply IH. nra.
    + intros HF. inversion HF as [|? ? Hx Hv]; subst.
      apply IH in Hv. nra.
Qed.

(** A vector has zero magnitude exactly when all its components are zero. *)
Lemma magnitude_zero_iff vec :
  magnitude vec = 0 <-> Forall (fun x => x = 0) vec.
Proof.
  rewrite <- sumsq_zero_iff. unfold magnitude. fold (sumsq vec). split.
  - apply sqrt_eq_0, sumsq_nonneg.
  - intros ->. apply sqrt_0.
Qed.


Lemma cosineSimilarity_ratio a b :
  length a = length b -> magnitude a <> 0 -> magnitude b <> 0 ->
  cosineSimilarity a b = dotProduct a b / (magnitude a * magnitude b).
Proof.
  intros Hlen Ha Hb. unfold cosineSimilarity.
  rewrite Hlen, Nat.eqb_refl. simpl.
  destruct (Req_dec_T (magnitude a) 0); [done|].
  destruct (Req_dec_T (magnitude b) 0); [done|]. reflexivity.
Qed.







(** *** Relevance *)

Lemma titleScore_range query ttl : 0 <= titleScore query ttl <= 1.
Proof.
  unfold titleScore, titleMatches.
  set (qw := split_ws (toLowerCase query)).
  set (p := fun word : string => existsb _ _).
  pose proof (split_ws_length (toLowerCase query)) as Hlen. fold qw in Hlen.
  pose proof (filter_length_le p qw) as Hle.
  apply le_INR in Hlen, Hle. simpl in Hlen.
  pose proof (pos_INR (length (List.filter p qw))) as H0.
  split.
  - apply Rmult_le_pos; [done|]. left. apply Rinv_0_lt_compat. lra.
  - apply (Rmult_le_reg_r (INR (length qw))); [lra|].
    unfold Rdiv. rewrite Rmult_assoc, Rinv_l by lra. lra.
Qed.

Lemma recencyScore_nonneg now pub : 0 <= recencyScore now pub.
Proof. unfold recencyScore. apply Rmax_l. Qed.

(** The chunk has a publication date that is a date. *)
Definition dated (c : EmbeddedChunk) : Prop := pubDate (metadata c) <> None.

(** The score of a chunk published at the time [pub]. *)
Definition datedScore
    (now pub : Z) (c : EmbeddedChunk) (query : string) (sim : R) : R :=
  Rmin (sim * 0.7 + recencyScore now pub * 0.2
        + titleScore query (title (metadata c)) * 0.1) 1.

Lemma calculateRelevanceScore_dated now c query sim pub :
  pubDate (metadata c) = Some pub ->
  calculateRelevanceScore now c query sim
  = Finite (datedScore now pub c query sim).
Proof. intros Hpub. unfold calculateRelevanceScore. by rewrite Hpub. Qed.

Lemma calculateRelevanceScore_undated now c query sim :
  pubDate (metadata c) = None -> calculateRelevanceScore now c query sim = NaN.
Proof. intros Hpub. unfold calculateRelevanceScore. by rewrite Hpub. Qed.


Lemma datedScore_le_1 now pub c query sim :
  datedScore now pub c query sim <= 1.
Proof. unfold datedScore. apply Rmin_r. Qed.

Lemma datedScore_lower now pub c query sim :
  Rmin (sim * 0.7) 1 <= datedScore now pub c query sim.
Proof.
  unfold datedScore.
  pose proof (recencyScore_nonneg now pub).
  pose proof (titleScore_range query (title (metadata c))).
  apply Rle_min_compat_r. lra.
Qed.

(** *** Ranking *)

(** [a] may stand before [b] in a ranking by descending relevance. *)
Definition descending (a b : SearchResult) : Prop :=
  number_le (relevanceScore b) (relevanceScore a).

(** The relevance of the result is a number. *)
Definition scored (r : SearchResult) : Prop := is_finite (relevanceScore r).

Definition passesThreshold (result : SearchResult) : bool :=
  gtb (similarity result) 0.1.

(** The results with the relevance [v]. *)
Definition withScore (v : number) (l : list SearchResult)
  : list SearchResult :=
  List.filter (fun r => number_eqb (relevanceScore r) v) l.

Lemma sort_insert_perm {A} (cmp : A -> A -> number) x l :
  Permutation (sort_insert cmp x l) (x :: l).
Proof.
  induction l as [|y l IH]; simpl; [reflexivity|].
  destruct (js_gt (cmp x y) (Finite 0)); [|reflexivity].
  rewrite IH. apply perm_swap.
Qed.

Lemma js_sort_perm {A} (cmp : A -> A -> number) l :
  Permutation (js_sort cmp l) l.
Proof.
  induction l as [|x l IH]; simpl; [reflexivity|].
  rewrite sort_insert_perm. by constructor.
Qed.

(** The comparator on two results whose relevance is a number. *)
Lemma byRelevanceDesc_scored x y :
  scored x -> scored y ->
  exists rx ry,
    relevanceScore x = Finite rx /\ relevanceScore y = Finite ry /\
    js_gt (byRelevanceDesc x y) (Finite 0) = gtb (ry - rx) 0.
Proof.
  unfold scored, byRelevanceDesc.
  destruct (relevanceScore x) as [rx| | |], (relevanceScore y) as [ry| | |];
    try done.
  intros _ _. exists rx, ry. by rewrite Rminus_def.
Qed.

(** A result never passes a result of the same relevance. *)
Lemma byRelevanceDesc_positive x y :
  js_gt (byRelevanceDesc x y) (Finite 0) = true ->
  relevanceScore x <> relevanceScore y.
Proof.
  unfold byRelevanceDesc. intros Hgt Heq. rewrite Heq in Hgt.
  destruct (relevanceScore y) as [ry| | |]; try done.
  simpl in Hgt. apply gtb_true in Hgt. lra.
Qed.

Lemma sort_insert_descending x l :
  scored x -> Forall scored l ->
  StronglySorted descending l ->
  StronglySorted descending (sort_insert byRelevanceDesc x l).
Proof.
  intros Hx Hl Hsorted. revert Hl.
  induction Hsorted as [|y l Hsorted IH Hall]; intros Hl; simpl.
  - repeat constructor.
  - apply Forall_cons_iff in Hl as [Hy Hl].
    destruct (byRelevanceDesc_scored x y Hx Hy) as (rx & ry & Ex & Ey & ->).
    destruct (gtb _ 0) eqn:Hcmp.
    + apply gtb_true in Hcmp. constructor; [by apply IH|].
      rewrite (sort_insert_perm byRelevanceDesc x l).
      constructor; [|exact Hall].
      unfold descending. rewrite Ex, Ey. simpl. lra.
    + apply gtb_false in Hcmp. constructor; [by constructor|].
      constructor; [unfold descending; rewrite Ex, Ey; simpl; lra|].
      rewrite List.Forall_forall in Hall, Hl.
      apply List.Forall_forall. intros z Hz.
      specialize (Hall z Hz). specialize (Hl z Hz).
      unfold descending, scored in *. rewrite Ex. rewrite Ey in Hall.
      destruct (relevanceScore z) as [rz| | |]; try done.
      simpl in *. lra.
Qed.

Lemma Forall_sort_insert {A} (P : A -> Prop) (cmp : A -> A -> number) x l :
  P x -> Forall P l -> Forall P (sort_insert cmp x l).
Proof.
  intros Hx Hl. rewrite (sort_insert_perm cmp x l). by constructor.
Qed.

Lemma Forall_js_sort {A} (P : A -> Prop) (cmp : A -> A -> number) l :
  Forall P l -> Forall P (js_sort cmp l).
Proof. intros Hl. by rewrite (js_sort_perm cmp l). Qed.

Lemma js_sort_descending l :
  Forall scored l -> StronglySorted descending (js_sort byRelevanceDesc l).
Proof.
  induction 1 as [|x l Hx Hl IH]; simpl; [constructor|].
  apply sort_insert_descending; [done| |done]. by apply Forall_js_sort.
Qed.

(** Stability: results of equal relevance keep their order, whatever the
    scores are. *)
Lemma sort_insert_stable v x l :
  withScore v (sort_insert byRelevanceDesc x l) = withScore v (x :: l).
Proof.
  unfold withScore. induction l as [|y l IH]; [reflexivity|].
  cbn [sort_insert].
  destruct (js_gt _ (Finite 0)) eqn:Hcmp; [|reflexivity].
  apply byRelevanceDesc_positive in Hcmp. cbn [List.filter] in *. rewrite IH.
  destruct (number_eqb (relevanceScore y) v) eqn:Ey,
           (number_eqb (relevanceScore x) v) eqn:Ex; try reflexivity.
  apply number_eqb_eq in Ex, Ey. congruence.
Qed.

Lemma js_sort_stable v l :
  withScore v (js_sort byRelevanceDesc l) = withScore v l.
Proof.
  induction l as [|x l IH]; [reflexivity|].
  cbn [js_sort]. rewrite sort_insert_stable. unfold withScore in *.
  cbn [List.filter]. by rewrite IH.
Qed.

Lemma withScore_head v x l l' :
  withScore v l = x :: l' -> In x l /\ relevanceScore x = v.
Proof.
  intros Hf.
  assert (Hin : In x (withScore v l)) by (rewrite Hf; by left).
  apply filter_In in Hin as [Hin Hkey]. split; [exact Hin|].
  by apply number_eqb_eq.
Qed.

Lemma number_le_antisym x y : number_le x y -> number_le y x -> x = y.
Proof.
  destruct x as [a| | |], y as [b| | |]; simpl; try done.
  intros H1 H2. f_equal. lra.
Qed.

(** A ranking is fixed by being descending and stable: two descending lists
    that hold the same results in the same order at every relevance value
    are equal.  So every stable sort by [byRelevanceDesc] returns what
    [js_sort] returns on results whose relevance is a number. *)
Lemma stable_ranking_unique l1 : forall l2,
  StronglySorted descending l1 ->
  StronglySorted descending l2 ->
  (forall v, withScore v l1 = withScore v l2) ->
  l1 = l2.
Proof.
  induction l1 as [|x l1 IH]; intros l2 Hs1 Hs2 Hsame.
  - destruct l2 as [|y l2]; [reflexivity|].
    specialize (Hsame (relevanceScore y)). unfold withScore in Hsame.
    cbn [List.filter] in Hsame. by rewrite number_eqb_refl in Hsame.
  - apply StronglySorted_inv in Hs1 as [Hs1 Hall1].
    rewrite List.Forall_forall in Hall1.
    pose proof (number_eqb_refl (relevanceScore x)) as Hx.
    destruct l2 as [|y l2].
    { specialize (Hsame (relevanceScore x)). unfold withScore in Hsame.
      cbn [List.filter] in Hsame. by rewrite Hx in Hsame. }
    apply StronglySorted_inv in Hs2 as [Hs2 Hall2].
    rewrite List.Forall_forall in Hall2.
    pose proof (number_eqb_refl (relevanceScore y)) as Hy.
    assert (Hkey : relevanceScore y = relevanceScore x).
    { destruct (number_eqb (relevanceScore y) (relevanceScore x)) eqn:Hyx;
        [by apply number_eqb_eq|exfalso].
      assert (Hxy : number_eqb (relevanceScore x) (relevanceScore y) = false).
      { destruct (number_eqb (relevanceScore x) (relevanceScore y)) eqn:E;
          [|done].
        apply number_eqb_eq in E. rewrite E, number_eqb_refl in Hyx. done. }
      pose proof (Hsame (relevanceScore x)) as Hvx.
      pose proof (Hsame (relevanceScore y)) as Hvy.
      unfold withScore in Hvx, Hvy. cbn [List.filter] in Hvx, Hvy.
      rewrite Hx, Hyx in Hvx. rewrite Hy, Hxy in Hvy.
      symmetry in Hvx. apply withScore_head in Hvx as [Hin2 _].
      apply withScore_head in Hvy as [Hin1 _].
      apply Hall1 in Hin1. apply Hall2 in Hin2. unfold descending in *.
      pose proof (number_le_antisym _ _ Hin1 Hin2) as E.
      rewrite E, number_eqb_refl in Hyx. done. }
    assert (Heq : x = y).
    { specialize (Hsame (relevanceScore x)). unfold withScore in Hsame.
      cbn [List.filter] in Hsame. rewrite Hkey, Hx in Hsame.
      by injection Hsame. }
    subst y. f_equal. apply IH; [done|done|].
    intros v. specialize (Hsame v). unfold withScore in *.
    cbn [List.filter] in Hsame.
    destruct (number_eqb (relevanceScore x) v); [by injection Hsame|done].
Qed.

Lemma js_sort_is_the_stable_sort l sorted :
  Forall scored l ->
  StronglySorted descending sorted ->
  (forall v, withScore v sorted = withScore v l) ->
  sorted = js_sort byRelevanceDesc l.
Proof.
  intros Hl Hs Hsame. apply stable_ranking_unique; [done| |].
  - by apply js_sort_descending.
  - intros v. by rewrite js_sort_stable.
Qed.





Lemma searchSimilarChunks_unfold chunks now qe query topK :
  searchSimilarChunks chunks now qe query topK
  = List.filter passesThreshold
      (firstn topK
         (js_sort byRelevanceDesc (map (scoreChunk now qe query) chunks))).
Proof. destruct chunks; [by destruct topK|reflexivity]. Qed.






(** *** A small corpus, read 31 days after its oldest chunk *)

(** Normalises the integer under [IZR] in the goal. *)
Ltac eval_IZR :=
  repeat match goal with
  | |- context [IZR ?z] =>
      lazymatch z with
      | Z0 => fail
      | Zpos _ => fail
      | Zneg _ => fail
      | _ => let z' := eval vm_compute in z in change (IZR z) with (IZR z')
      end
  end.

(** Decides the comparisons of concrete numbers in the goal. *)
Ltac decide_gtb :=
  repeat match goal with
  | |- context [gtb ?x ?y] =>
      first [ rewrite (proj2 (gtb_true x y)) by lra
            | rewrite (proj2 (gtb_false x y)) by lra ]
  end.

Definition day31 : Z := 31 * 86400000.

Definition oldChunk : EmbeddedChunk :=
  {| chunk_id := "article_0"; text := "Cup final tonight";
     embedding := [5; 12];
     metadata := {| title := "sport"; source := "BBC"; link := "";
                    pubDate := Some 0%Z; chunkIndex := 0 |} |}.

Definition freshChunk : EmbeddedChunk :=
  {| chunk_id := "article_1"; text := "Headlines";
     embedding := [0; 1];
     metadata := {| title := "news"; source := "BBC"; link := "";
                    pubDate := Some day31; chunkIndex := 0 |} |}.



Definition queryVector : list R := [1; 0].

Lemma titleScore_news_sport : titleScore "news" "sport" = 0.
Proof. unfold titleScore. simpl. lra. Qed.

Lemma titleScore_news_news : titleScore "news" "news" = 1.
Proof. unfold titleScore. simpl. lra. Qed.

Lemma recencyScore_31_days : recencyScore day31 0 = 0.
Proof.
  unfold recencyScore, msPerDay, day31. eval_IZR.
  rewrite Rmax_left by lra. reflexivity.
Qed.

Lemma recencyScore_same_day : recencyScore day31 day31 = 1.
Proof.
  unfold recencyScore, msPerDay, day31. eval_IZR.
  rewrite Rmax_right by lra. lra.
Qed.

Lemma magnitude_queryVector : magnitude queryVector = 1.
Proof.
  unfold magnitude, queryVector. simpl.
  replace (0 + 1 * 1 + 0 * 0) with 1 by lra. apply sqrt_1.
Qed.

Lemma magnitude_fresh : magnitude (embedding freshChunk) = 1.
Proof.
  unfold magnitude. simpl.
  replace (0 + 0 * 0 + 1 * 1) with 1 by lra. apply sqrt_1.
Qed.

Lemma magnitude_old : magnitude (embedding oldChunk) = 13.
Proof.
  unfold magnitude. simpl.
  replace (0 + 5 * 5 + 12 * 12) with (13 * 13) by lra.
  apply sqrt_square. lra.
Qed.

Lemma similarity_fresh :
  cosineSimilarity queryVector (embedding freshChunk) = 0.
Proof.
  rewrite cosineSimilarity_ratio;
    rewrite ?magnitude_queryVector, ?magnitude_fresh; try done; try lra.
  unfold dotProduct. simpl. lra.
Qed.

Lemma similarity_old :
  cosineSimilarity queryVector (embedding oldChunk) = 5 / 13.
Proof.
  rewrite cosineSimilarity_ratio;
    rewrite ?magnitude_queryVector, ?magnitude_old; try done; try lra.
  unfold dotProduct. simpl. lra.
Qed.


Definition freshResult : SearchResult :=
  {| chunk := freshChunk; similarity := 0; relevanceScore := Finite 0.3 |}.

Definition oldResult : SearchResult :=
  {| chunk := oldChunk; similarity := 5 / 13;
     relevanceScore := Finite (3.5 / 13) |}.



Lemma scoreChunk_fresh :
  scoreChunk day31 queryVector "news" freshChunk = freshResult.
Proof.
  unfold scoreChunk, freshResult. rewrite similarity_fresh. f_equal.
  rewrite (calculateRelevanceScore_dated _ _ _ _ day31) by reflexivity.
  unfold datedScore.
  change (title (metadata freshChunk)) with "news"%string.
  rewrite recencyScore_same_day, titleScore_news_news.
  f_equal. rewrite Rmin_left; lra.
Qed.

Lemma scoreChunk_old :
  scoreChunk day31 queryVector "news" oldChunk = oldResult.
Proof.
  unfold scoreChunk, oldResult. rewrite similarity_old. f_equal.
  rewrite (calculateRelevanceScore_dated _ _ _ _ 0%Z) by reflexivity.
  unfold datedScore.
  change (title (metadata oldChunk)) with "sport"%string.
  rewrite recencyScore_31_days, titleScore_news_sport.
  f_equal. rewrite Rmin_left; lra.
Qed.










End VectorStore.

(** ** The embedding provider ([src/lib/embeddings.ts]) *)

Module Embeddings.
Import Js.
Local Open Scope R_scope.

(** A vector as the code returns it: its components may be [NaN]. *)
Definition vector : Type := list number.

(** *** [hashString] *)

(** [ToInt32]: the signed 32-bit integer congruent to [z]. *)
Definition toInt32 (z : Z) : Z :=
  let m := (z mod 2 ^ 32)%Z in
  if (m <? 2 ^ 31)%Z then m else (m - 2 ^ 32)%Z.

(** [str.charCodeAt(i)], on a text of 7-bit characters: the code unit is
    the byte. *)
Definition charCodeAt (c : ascii) : Z := Z.of_nat (nat_of_ascii c).

(** One round of the loop: [hash = (hash << 5) - hash + char] and then
    [hash = hash & hash]. *)
Definition hashStep (hash : Z) (c : ascii) : Z :=
  let hash := (toInt32 (Z.shiftl (toInt32 hash) 5) - hash + charCodeAt c)%Z in
  Z.land (toInt32 hash) (toInt32 hash).

Definition hashString (str : string) : Z :=
  Z.abs (fold_left hashStep (list_ascii_of_string str) 0%Z).

(** *** [createDeterministicEmbedding] *)

Definition dimension : nat := 768.

(** [embedding[position] += v] *)
Definition addAt (position : nat) (v : R) (embedding : list R) : list R :=
  alter (fun x => x + v) position embedding.

(** The body of [words.forEach((word, wordIndex) => ...)]. *)
Definition addWord (embedding : list R) (entry : string * nat) : list R :=
  let '(word, wordIndex) := entry in
  let wordHash := hashString word in
  fold_left
    (fun emb i =>
       let position :=
         Z.to_nat ((wordHash + Z.of_nat i + Z.of_nat wordIndex) mod 768) in
       addAt position (sin (IZR (wordHash + Z.of_nat i)) * 0.1) emb)
    (seq 0 dimension) embedding.

(** [new Set(text.toLowerCase()).size] *)
Definition uniqueCharCount (str : string) : nat :=
  length (nodup ascii_dec (list_ascii_of_string (toLowerCase str))).

(** The body of [for (let i = 0; i < 50; i++)]. *)
Definition addFeatures (textLength uniqueChars : R) (embedding : list R)
  : list R :=
  fold_left
    (fun emb i =>
       addAt (i + 50) (uniqueChars * 0.2) (addAt i (textLength * 0.2) emb))
    (seq 0 50) embedding.

(** The vector before the final normalisation. *)
Definition rawEmbedding (str : string) : list R :=
  let words := split_ws (toLowerCase str) in
  let embedding := repeat 0 dimension in
  let embedding :=
    fold_left addWord (combine words (seq 0 (length words))) embedding in
  let textLength := Rmin (INR (String.length str) / 1000) 1 in
  let uniqueChars := INR (uniqueCharCount str) / 26 in
  addFeatures textLength uniqueChars embedding.

(** [Math.sqrt(embedding.reduce((sum, val) => sum + val * val, 0))] *)
Definition norm (embedding : list R) : R :=
  sqrt (fold_left (fun sum val => sum + val * val) embedding 0).

(** The last two lines: every component is divided by the magnitude,
    whatever the magnitude is. *)
Definition normalize (embedding : list R) : vector :=
  let magnitude := norm embedding in
  map (fun val => js_div val magnitude) embedding.

Definition createDeterministicEmbedding (str : string) : vector :=
  normalize (rawEmbedding str).

(** *** The provider call *)

(** What an expression of type [number[]] holds at run time: a vector, or
    [undefined] ([None]). *)
Definition answer : Type := option vector.

(** What the [fetch] of the provider and the reading of its answer came to:
    [Body data] is an answer with status 2xx whose JSON was read, with
    [data] the field [data.data] ([None] when it is missing or no array);
    an item of the array is an object, given by its field [embedding]
    ([None] when the item has no such field). *)
Inductive ProviderReply : Type :=
  | FetchRejected
  | HttpError (status : Z)
  | BodyUnreadable
  | Body (data : option (list answer)).

(** [!jinaApiKey] is false. *)
Definition configured (jinaApiKey : option string) : bool :=
  match jinaApiKey with
  | Some key => negb (String.eqb key "")
  | None => false
  end.

(** *** [createEmbedding] and its cache *)

Definition base64Alphabet : string :=
  "ABCDEFGHIJKLMNOPQRSTUVWXYZabcdefghijklmnopqrstuvwxyz0123456789+/".

Definition base64Digit (n : Z) : ascii :=
  match String.get (Z.to_nat n) base64Alphabet with
  | Some c => c
  | None => "="%char
  end.

(** [buf.toString("base64")] on the bytes of [buf]. *)
Fixpoint base64Chars (bytes : list Z) : list ascii :=
  match bytes with
  | [] => []
  | [a] =>
      [base64Digit (Z.shiftr a 2);
       base64Digit (Z.shiftl (Z.land a 3) 4);
       "="%char; "="%char]
  | [a; b] =>
      [base64Digit (Z.shiftr a 2);
       base64Digit (Z.lor (Z.shiftl (Z.land a 3) 4) (Z.shiftr b 4));
       base64Digit (Z.shiftl (Z.land b 15) 2);
       "="%char]
  | a :: b :: c :: rest =>
      base64Digit (Z.shiftr a 2)
      :: base64Digit (Z.lor (Z.shiftl (Z.land a 3) 4) (Z.shiftr b 4))
      :: base64Digit (Z.lor (Z.shiftl (Z.land b 15) 2) (Z.shiftr c 6))
      :: base64Digit (Z.land c 63)
      :: base64Chars rest
  end.

(** [Buffer.from(text)]: the bytes of the text. *)
Definition Buffer_from (str : string) : list Z :=
  map charCodeAt (list_ascii_of_string str).

Definition toBase64 (bytes : list Z) : string :=
  string_of_list_ascii (base64Chars bytes).

Definition cacheKey (str : string) : string :=
  "embedding:" +:+ substring0 50 (toBase64 (Buffer_from str)).

(** [embeddingCache] is the module-level [Map]; the new map is returned
    with the result.  The first item of a non-empty answer is put into the
    map before its [length] is read for the log line: when the item has no
    embedding that read throws, and the [catch] returns the fallback with
    [undefined] left in the map. *)
Definition createEmbedding
    (jinaApiKey : option string) (reply : ProviderReply)
    (embeddingCache : gmap string answer) (str : string)
  : answer * gmap string answer :=
  match embeddingCache !! cacheKey str with
  | Some cached => (cached, embeddingCache)
  | None =>
      if negb (configured jinaApiKey) then
        (Some (createDeterministicEmbedding str), embeddingCache)
      else
        match reply with
        | Body (Some (Some emb :: _)) =>
            (Some emb, <[cacheKey str := Some emb]> embeddingCache)
        | Body (Some (None :: _)) =>
            (Some (createDeterministicEmbedding str),
             <[cacheKey str := None]> embeddingCache)
        | _ => (Some (createDeterministicEmbedding str), embeddingCache)
        end
  end.

(** *** [createBatchEmbeddings] *)

(** [Promise.all(texts.map(createDeterministicEmbedding))] *)
Definition fallbackBatch (texts : list string) : list answer :=
  map (fun str => Some (createDeterministicEmbedding str)) texts.

(** [data.data.map((item) => item.embedding)] is returned as it is,
    whatever its length. *)
Definition createBatchEmbeddings
    (jinaApiKey : option string) (reply : ProviderReply) (texts : list string)
  : list answer :=
  if negb (configured jinaApiKey) then fallbackBatch texts
  else
    match reply with
    | Body (Some items) => items
    | _ => fallbackBatch texts
    end.

Example toBase64_hello : toBase64 (Buffer_from "hello") = "aGVsbG8="%string.
Proof. reflexivity. Qed.

Example toBase64_news : toBase64 (Buffer_from "news!?") = "bmV3cyE/"%string.
Proof. reflexivity. Qed.

Example hashString_ab : hashString "ab" = 3105%Z.
Proof. reflexivity. Qed.

(** *** The shape of the fallback vector *)

Lemma addAt_length position v embedding :
  length (addAt position v embedding) = length embedding.
Proof. apply length_alter. Qed.

Lemma fold_left_length_inv {A B} (f : list A -> B -> list A) (n : nat) :
  (forall emb b, length emb = n -> length (f emb b) = n) ->
  forall bs emb, length emb = n -> length (fold_left f bs emb) = n.
Proof.
  intros Hf bs. induction bs as [|b bs IH]; intros emb Hemb; simpl; auto.
Qed.

Lemma addWord_length embedding entry :
  length embedding = dimension -> length (addWord embedding entry) = dimension.
Proof.
  destruct entry as [word wordIndex]. unfold addWord.
  apply fold_left_length_inv. intros emb i Hemb. by rewrite addAt_length.
Qed.

Lemma rawEmbedding_length str : length (rawEmbedding str) = dimension.
Proof.
  unfold rawEmbedding, addFeatures.
  apply fold_left_length_inv.
  - intros emb i Hemb. by rewrite !addAt_length.
  - apply fold_left_length_inv; [apply addWord_length|].
    apply repeat_length.
Qed.

(** The fallback vector always has 768 components. *)
Lemma createDeterministicEmbedding_length str :
  length (createDeterministicEmbedding str) = 768%nat.
Proof.
  unfold createDeterministicEmbedding, normalize.
  rewrite length_map. apply rawEmbedding_length.
Qed.

(** With a non-zero magnitude the division yields finite components whose
    squares sum to 1. *)
Lemma normalize_unit embedding :
  norm embedding <> 0 ->
  normalize embedding
  = map Finite (map (fun val => val / norm embedding) embedding) /\
  VectorStore.sumsq (map (fun val => val / norm embedding) embedding) = 1.
Proof.
  intros Hn. split.
  - unfold normalize. rewrite map_map. apply map_ext. intros val.
    unfold js_div. destruct (Req_dec_T (norm embedding) 0); done.
  - assert (Hsq : norm embedding * norm embedding = VectorStore.sumsq embedding)
      by apply VectorStore.magnitude_sqr.
    assert (Hscale : forall l,
      VectorStore.sumsq (map (fun val => val / norm embedding) l)
      = VectorStore.sumsq l / (norm embedding * norm embedding)).
    { induction l as [|x l IH]; simpl.
      - unfold VectorStore.sumsq. simpl. field. done.
      - rewrite !VectorStore.sumsq_cons, IH. field. done. }
    rewrite Hscale, <- Hsq. field. done.
Qed.

(** With a zero magnitude every component is [0 / 0]: the vector returned
    is all [NaN], not the all-zero vector. *)
Lemma normalize_zero_magnitude embedding :
  norm embedding = 0 ->
  normalize embedding = map (fun _ => NaN) embedding.
Proof.
  intros Hn. unfold normalize. rewrite Hn.
  apply VectorStore.magnitude_zero_iff in Hn.
  induction Hn as [|x l Hx Hl IH]; simpl; [reflexivity|].
  rewrite IH. f_equal. unfold js_div.
  destruct (Req_dec_T 0 0); [|done]. destruct (Req_dec_T x 0); done.
Qed.

(** *** The batch *)

(** The call failed, in the words of the specification: a response that is
    no success, or a result that is empty or cannot be read. *)
Definition providerFailed (reply : ProviderReply) : Prop :=
  match reply with
  | Body (Some (_ :: _)) => False
  | _ => True
  end.

(** The batch is either the fallback of every text or the list the
    provider sent, never a mixture; it is the fallback when the provider is
    not configured, when the request throws, when the status is no 2xx and
    when the body has no array. *)
Lemma createBatchEmbeddings_cases
    (jinaApiKey : option string) (reply : ProviderReply)
    (texts : list string) :
  (configured jinaApiKey = false \/
   (forall items, reply <> Body (Some items)) ->
   createBatchEmbeddings jinaApiKey reply texts = fallbackBatch texts /\
   length (createBatchEmbeddings jinaApiKey reply texts) = length texts) /\
  (createBatchEmbeddings jinaApiKey reply texts = fallbackBatch texts \/
   exists items,
     reply = Body (Some items) /\
     createBatchEmbeddings jinaApiKey reply texts = items).
Proof.
  unfold createBatchEmbeddings, fallbackBatch. split.
  - intros [Hkey|Hfail].
    + rewrite Hkey. simpl. by rewrite length_map.
    + destruct (negb _); [by rewrite length_map|].
      destruct reply as [| | |[items|]]; try by rewrite length_map.
      by destruct (Hfail items).
  - destruct (negb _); [by left|].
    destruct reply as [| | |[items|]]; eauto.
Qed.

(** C9 (the code at the failing reply).  With a key configured, an answer
    of status 2xx whose array is empty is a failed call for the
    specification, and [createEmbedding] treats it so: it returns the
    fallback and leaves the cache as it is.  [createBatchEmbeddings]
    returns the array of the answer as it is, whatever its length: no
    vector at all for the empty array, however many texts were sent, and
    fewer vectors than texts for a shorter one. *)
Theorem createBatchEmbeddings_empty_reply_returns_nothing
    (jinaApiKey : option string) (texts : list string)
    (embeddingCache : gmap string answer) (str : string) :
  providerFailed (Body (Some [])) /\
  (configured jinaApiKey = true ->
   createBatchEmbeddings jinaApiKey (Body (Some [])) texts = [] /\
   (forall items,
      createBatchEmbeddings jinaApiKey (Body (Some items)) texts = items) /\
   (embeddingCache !! cacheKey str = None ->
    createEmbedding jinaApiKey (Body (Some [])) embeddingCache str
    = (Some (createDeterministicEmbedding str), embeddingCache))).
Proof.
  split; [exact I|]. intros Hkey. split; [|split].
  - unfold createBatchEmbeddings. by rewrite Hkey.
  - intros items. unfold createBatchEmbeddings. by rewrite Hkey.
  - intros Hmiss. unfold createEmbedding. by rewrite Hmiss, Hkey.
Qed.

(** *** The cache key *)

Lemma base64Chars_app (n : nat) : forall p rest,
  length p = (3 * n)%nat ->
  base64Chars (p ++ rest) = base64Chars p ++ base64Chars rest /\
  length (base64Chars p) = (4 * n)%nat.
Proof.
  induction n as [|n IH]; intros p rest Hlen.
  - destruct p; [done|simpl in Hlen; lia].
  - destruct p as [|a [|b [|c p]]]; simpl in Hlen; try lia.
    destruct (IH p rest ltac:(lia)) as [Happ Hl].
    cbn [app base64Chars length]. rewrite Happ, Hl. split; [done|lia].
Qed.

Lemma base64Chars_first_two x y rest :
  firstn 2 (base64Chars (x :: y :: rest))
  = [base64Digit (Z.shiftr x 2);
     base64Digit (Z.lor (Z.shiftl (Z.land x 3) 4) (Z.shiftr y 4))].
Proof. destruct rest; reflexivity. Qed.

(** The first 50 base64 characters are fixed by the first 38 bytes. *)
Lemma base64Chars_first_50 p rest1 rest2 :
  length p = 38%nat ->
  firstn 50 (base64Chars (p ++ rest1)) = firstn 50 (base64Chars (p ++ rest2)).
Proof.
  intros Hlen.
  rewrite <- (firstn_skipn 36 p), <- !app_assoc.
  assert (H36 : length (firstn 36 p) = (3 * 12)%nat)
    by (rewrite length_firstn; lia).
  assert (H2 : length (skipn 36 p) = 2%nat) by (rewrite length_skipn; lia).
  destruct (skipn 36 p) as [|x [|y [|z tl]]]; simpl in H2; try lia.
  destruct (base64Chars_app 12 _ ([x; y] ++ rest1) H36) as [-> Hl].
  destruct (base64Chars_app 12 _ ([x; y] ++ rest2) H36) as [-> _].
  rewrite !firstn_app, Hl. cbn [app].
  change (50 - 4 * 12)%nat with 2%nat.
  by rewrite !base64Chars_first_two.
Qed.

Lemma substring0_of_list (n : nat) : forall l,
  substring0 n (string_of_list_ascii l) = string_of_list_ascii (firstn n l).
Proof.
  induction n as [|n IH]; intros [|c l]; simpl; try reflexivity.
  by rewrite IH.
Qed.

Lemma Buffer_from_app p rest :
  Buffer_from (p +:+ rest) = Buffer_from p ++ Buffer_from rest.
Proof.
  unfold Buffer_from. rewrite <- map_app. f_equal.
  induction p as [|c p IH]; simpl; [reflexivity|]. by rewrite IH.
Qed.

Lemma Buffer_from_length str : length (Buffer_from str) = String.length str.
Proof.
  unfold Buffer_from. rewrite length_map.
  induction str as [|c str IH]; simpl; [reflexivity|]. by rewrite IH.
Qed.

Lemma cacheKey_shared_prefix p rest1 rest2 :
  String.length p = 38%nat -> cacheKey (p +:+ rest1) = cacheKey (p +:+ rest2).
Proof.
  intros Hlen. unfold cacheKey, toBase64. f_equal.
  rewrite !substring0_of_list, !Buffer_from_app. f_equal.
  apply base64Chars_first_50. by rewrite Buffer_from_length.
Qed.

Definition headline : string := "Breaking news: markets rally as talks ".

(** C10. The cache key of [createEmbedding] is fixed by the first 38 bytes
    of a text, so distinct texts share a key; once a provider vector is
    cached for one text, a call for another text with the same key returns
    that vector, whatever the provider or the fallback would give for it. *)
Theorem createEmbedding_cache_key_collides :
  (forall str,
     cacheKey str
     = "embedding:" +:+ substring0 50 (toBase64 (Buffer_from str))) /\
  (forall p rest1 rest2,
     String.length p = 38%nat ->
     cacheKey (p +:+ rest1) = cacheKey (p +:+ rest2)) /\
  (exists str1 str2, str1 <> str2 /\ cacheKey str1 = cacheKey str2) /\
  (forall str1 str2 jinaApiKey (emb : vector) others
          (embeddingCache : gmap string answer),
     cacheKey str1 = cacheKey str2 ->
     configured jinaApiKey = true ->
     embeddingCache !! cacheKey str1 = None ->
     createEmbedding jinaApiKey (Body (Some (Some emb :: others)))
       embeddingCache str1
     = (Some emb, <[cacheKey str1 := Some emb]> embeddingCache) /\
     forall jinaApiKey' reply',
       createEmbedding jinaApiKey' reply'
         (<[cacheKey str1 := Some emb]> embeddingCache) str2
       = (Some emb, <[cacheKey str1 := Some emb]> embeddingCache)).
Proof.
  split; [reflexivity|]. split; [apply cacheKey_shared_prefix|]. split.
  - exists (headline +:+ "resume")%string, (headline +:+ "stall")%string.
    split; [discriminate|]. by apply cacheKey_shared_prefix.
  - intros str1 str2 key emb others cache Hkey Hconf Hmiss. split.
    + unfold createEmbedding. rewrite Hmiss, Hconf. reflexivity.
    + intros key' reply'. unfold createEmbedding.
      rewrite <- Hkey, lookup_insert_eq. reflexivity.
Qed.

(** Sharing 37 bytes is not enough: the 50th character also carries the
    high four bits of byte 38. *)
Example cacheKey_needs_byte_38 :
  cacheKey "Breaking news: markets rally as talksA"
  <> cacheKey "Breaking news: markets rally as talksz".
Proof. discriminate. Qed.

Lemma createBatchEmbeddings_empty_reply_returns_nothing_witness :
  createBatchEmbeddings (Some "key") (Body (Some [])) ["a"; "b c"] = [] /\
  createBatchEmbeddings (Some "key") (Body (Some [Some [Finite 1]]))
    ["a"; "b c"]
  = [Some [Finite 1]] /\
  createEmbedding (Some "key") (Body (Some [])) ∅ "a"
  = (Some (createDeterministicEmbedding "a"), ∅).
Proof.
  destruct (createBatchEmbeddings_empty_reply_returns_nothing
              (Some "key"%string) ["a"; "b c"]%string ∅ "a"%string)
    as [_ Hcode].
  destruct (Hcode eq_refl) as (Hbatch & Hshort & Hone).
  split; [exact Hbatch|]. split; [apply Hshort|]. apply Hone, lookup_empty.
Defined.

Definition providerVector : vector := [Finite 1].

Lemma createEmbedding_cache_key_collides_witness :
  fst (createEmbedding None FetchRejected
         (snd (createEmbedding (Some "key") (Body (Some [Some providerVector]))
                 (∅ : gmap string answer) (headline +:+ "resume")))
         (headline +:+ "stall"))
  = Some providerVector.
Proof.
  destruct createEmbedding_cache_key_collides as (_ & Hprefix & _ & Hhit).
  destruct (Hhit (headline +:+ "resume")%string (headline +:+ "stall")%string
              (Some "key"%string) providerVector [] ∅)
    as [Hfirst Hsecond].
  - by apply Hprefix.
  - reflexivity.
  - apply lookup_empty.
  - rewrite Hfirst. cbn [snd]. by rewrite Hsecond.
Defined.

(** *** What the specification says of the fallback vector *)

(** For one text: 768 components, all finite, of unit norm - or the
    unchanged zero vector when the magnitude before normalisation is
    zero. *)
Definition fallbackAsSpecified (str : string) : Prop :=
  length (createDeterministicEmbedding str) = 768%nat /\
  Forall is_finite (createDeterministicEmbedding str) /\
  (norm (rawEmbedding str) <> 0 ->
   exists vals,
     createDeterministicEmbedding str = map Finite vals /\
     VectorStore.sumsq vals = 1) /\
  (norm (rawEmbedding str) = 0 ->
   createDeterministicEmbedding str = map Finite (rawEmbedding str)).

(** The code meets it exactly on the texts whose vector before
    normalisation is not the zero vector; whether every text is such a
    text rests on sums of sines of integers not cancelling. *)
Lemma fallbackAsSpecified_iff str :
  fallbackAsSpecified str <-> norm (rawEmbedding str) <> 0.
Proof.
  split.
  - intros (_ & Hfin & _ & _) Hzero.
    unfold createDeterministicEmbedding in Hfin.
    rewrite (normalize_zero_magnitude _ Hzero) in Hfin.
    pose proof (rawEmbedding_length str) as Hlen.
    destruct (rawEmbedding str); [discriminate|].
    by inversion Hfin.
  - intros Hnz. destruct (normalize_unit _ Hnz) as [Hmap Hunit].
    split; [apply createDeterministicEmbedding_length|].
    unfold createDeterministicEmbedding. rewrite Hmap.
    split; [|split].
    + apply List.Forall_forall. intros n Hin.
      apply in_map_iff in Hin as (r & <- & _). exact I.
    + intros _. eauto.
    + done.
Qed.

End Embeddings.

(** ** The Redis wrapper, the session log and the search cache
    (the first file held in [src/lib/redis.ts]) *)

Module Redis.
Import Js.

(** *** The backing store *)

(** What [new Redis({ url, token })] holds. *)
Record Client : Type := { clientUrl : string; clientToken : string }.

(** The part of [process.env] that is read. *)
Record Env : Type := {
  KV_REST_API_URL : option string;
  KV_REST_API_TOKEN : option string;
  KV_REST_API_READ_ONLY_TOKEN : option string
}.

(** A variable that is set and not empty (a truthy string). *)
Definition present (v : option string) : option string :=
  match v with
  | Some s => if String.eqb s "" then None else Some s
  | None => None
  end.

(** How one call that leaves the process ends. *)
Inductive Outcome : Type :=
  | Succeeds
  | Throws (message : string).

(** A Redis value: a string or a list of strings, each a text. *)
Inductive Value : Type :=
  | VString (t : Text Json)
  | VList (items : list (Text Json)).

(** The lines written to the console that the properties count. *)
Inductive LogLine : Type :=
  | EnvironmentCheck
  | MissingWriteEnvironment
  | MissingReadEnvironment
  | Connected
  | ConnectionTestFailed
  | InitFailed
  | ReadInitFailed
  | AuthErrorWhileCaching
  | AuthErrorOnRead
  | ErrorCaching
  | ErrorGettingCache
  | RedisNotAvailable
  | ErrorGettingHistory
  | SkippingSessionStorage
  | ErrorAddingMessage.

(** The module-level variables. *)
Record State : Type := {
  redisClient : option Client;
  readOnlyRedisClient : option Client;
  redisDisabled : bool;
  redisErrorLogged : bool
}.

(** The module state, the remote key space and the console. *)
Record World : Type := {
  state : State;
  store : gmap string Value;
  console : list LogLine
}.

(** The state when the module is loaded; [disable] is
    [process.env.DISABLE_REDIS === "true"]. *)
Definition initialState (disable : bool) : State :=
  {| redisClient := None; readOnlyRedisClient := None;
     redisDisabled := disable; redisErrorLogged := false |}.

Definition log (line : LogLine) (w : World) : World :=
  {| state := state w; store := store w; console := console w ++ [line] |}.

Definition setState (st : State) (w : World) : World :=
  {| state := st; store := store w; console := console w |}.

Definition setStore (m : gmap string Value) (w : World) : World :=
  {| state := state w; store := m; console := console w |}.

(** *** Redis commands *)

(** The index arithmetic of [LTRIM key start stop]. *)
Definition ltrim {A} (start stop : Z) (l : list A) : list A :=
  let llen := Z.of_nat (length l) in
  let start := if (start <? 0)%Z then (llen + start)%Z else start in
  let stop := if (stop <? 0)%Z then (llen + stop)%Z else stop in
  let start := if (start <? 0)%Z then 0%Z else start in
  if (stop <? start)%Z || (llen <=? start)%Z then []
  else
    let stop := if (llen <=? stop)%Z then (llen - 1)%Z else stop in
    firstn (Z.to_nat (stop - start + 1)) (skipn (Z.to_nat start) l).

(** [LRANGE key start stop] selects the same elements. *)
Definition lrange {A} (start stop : Z) (l : list A) : list A :=
  ltrim start stop l.

(** [RPUSH key item]; [None] when the call throws. *)
Definition rpushCmd (o : Outcome) (key : string) (item : Text Json)
    (w : World) : option World :=
  match o with
  | Throws _ => None
  | Succeeds =>
      match store w !! key with
      | None => Some (setStore (<[key := VList [item]]> (store w)) w)
      | Some (VList items) =>
          Some (setStore (<[key := VList (items ++ [item])]> (store w)) w)
      | Some (VString _) => None
      end
  end.

(** [LTRIM key start stop]; a list left empty is removed. *)
Definition ltrimCmd (o : Outcome) (key : string) (start stop : Z)
    (w : World) : option World :=
  match o with
  | Throws _ => None
  | Succeeds =>
      match store w !! key with
      | None => Some w
      | Some (VList items) =>
          match ltrim start stop items with
          | [] => Some (setStore (delete key (store w)) w)
          | kept => Some (setStore (<[key := VList kept]> (store w)) w)
          end
      | Some (VString _) => None
      end
  end.

(** *** [getRedisClient] and [getReadOnlyRedisClient] *)

Definition disableWrite (st : State) : State :=
  {| redisClient := None; readOnlyRedisClient := readOnlyRedisClient st;
     redisDisabled := true; redisErrorLogged := redisErrorLogged st |}.

Definition disableRead (st : State) : State :=
  {| redisClient := redisClient st; readOnlyRedisClient := None;
     redisDisabled := true; redisErrorLogged := redisErrorLogged st |}.

Definition markErrorLogged (st : State) : State :=
  {| redisClient := redisClient st;
     readOnlyRedisClient := readOnlyRedisClient st;
     redisDisabled := redisDisabled st; redisErrorLogged := true |}.

(** [construct] is how [new Redis(...)] ends, [probe] how the test write
    [set("healthcheck", "ok")] ends; both matter only when they are
    reached. *)
Definition getRedisClient (env : Env) (construct probe : Outcome) (w : World)
  : option Client * World :=
  if redisDisabled (state w) then (None, w)
  else
    match redisClient (state w) with
    | Some client => (Some client, w)
    | None =>
        let w := log EnvironmentCheck w in
        match present (KV_REST_API_URL env),
              present (KV_REST_API_TOKEN env) with
        | Some url, Some token =>
            match construct with
            | Throws _ =>
                (None, log InitFailed (setState (disableWrite (state w)) w))
            | Succeeds =>
                let client := {| clientUrl := url; clientToken := token |} in
                match probe with
                | Succeeds =>
                    let st :=
                      {| redisClient := Some client;
                         readOnlyRedisClient := readOnlyRedisClient (state w);
                         redisDisabled := redisDisabled (state w);
                         redisErrorLogged := redisErrorLogged (state w) |} in
                    (Some client,
                     log Connected
                       (setStore
                          (<["healthcheck"%string := VString (Malformed "ok")]>
                             (store w))
                          (setState st w)))
                | Throws _ =>
                    (None,
                     log ConnectionTestFailed
                       (setState (disableWrite (state w)) w))
                end
            end
        | _, _ => (None, log MissingWriteEnvironment w)
        end
    end.

Definition getReadOnlyRedisClient (env : Env) (construct : Outcome)
    (w : World) : option Client * World :=
  if redisDisabled (state w) then (None, w)
  else
    match readOnlyRedisClient (state w) with
    | Some client => (Some client, w)
    | None =>
        let token :=
          match present (KV_REST_API_READ_ONLY_TOKEN env) with
          | Some t => Some t
          | None => present (KV_REST_API_TOKEN env)
          end in
        match present (KV_REST_API_URL env), token with
        | Some url, Some token =>
            match construct with
            | Throws _ =>
                (None,
                 log ReadInitFailed (setState (disableRead (state w)) w))
            | Succeeds =>
                let client := {| clientUrl := url; clientToken := token |} in
                let st :=
                  {| redisClient := redisClient (state w);
                     readOnlyRedisClient := Some client;
                     redisDisabled := redisDisabled (state w);
                     redisErrorLogged := redisErrorLogged (state w) |} in
                (Some client, setState st w)
            end
        | _, _ => (None, log MissingReadEnvironment w)
        end
    end.

(** *** Session management *)

Definition historyKey (sessionId : string) : string :=
  "session:" +:+ sessionId +:+ ":history".

(** What the client hands over for a stored text: the value that
    [JSON.parse] makes of it, or the text itself, as a string, when it is
    no JSON. *)
Definition deserialize (t : Text Json) : Json :=
  match t with
  | Wellformed value => value
  | Malformed raw => JString raw
  end.

(** [JSON.parse(item as string)] in the code, on what the client handed
    over for the stored text [t]; [None] is the thrown [SyntaxError].  A
    text that is no JSON comes back as it is and fails here as it failed
    in the client; a value is parsed a second time ([JSON_parse_value]).
    [parseString] is [JSON.parse] on the strings it is consulted for. *)
Definition parseAgain (parseString : Json -> option Json) (t : Text Json)
  : option Json :=
  match t with
  | Wellformed value => JSON_parse_value parseString value
  | Malformed _ => None
  end.

(** The [map]/[filter(Boolean)] chain of [getSessionHistory], on the
    stored texts of the entries. *)
Definition parseHistory (parseString : Json -> option Json)
    (history : list (Text Json)) : list Json :=
  List.filter truthy
    (map (fun item =>
            match parseAgain parseString item with
            | Some value => value
            | None => JNull
            end)
       history).

(** [range] is how [client.lrange] ends. *)
Definition getSessionHistory (parseString : Json -> option Json)
    (env : Env) (construct range : Outcome)
    (sessionId : string) (w : World) : list Json * World :=
  match getReadOnlyRedisClient env construct w with
  | (None, w) => ([], log RedisNotAvailable w)
  | (Some _, w) =>
      match range, store w !! historyKey sessionId with
      | Succeeds, None => (parseHistory parseString [], w)
      | Succeeds, Some (VList items) =>
          (parseHistory parseString (lrange 0 (-1) items), w)
      | _, _ => ([], log ErrorGettingHistory w)
      end
  end.

(** [addMessageToSession] returns [undefined] on every path; the result
    here names the path taken. *)
Inductive AppendResult : Type :=
  | Stored      (* the push, the expire and the trim all went through *)
  | Skipped     (* no client: nothing was sent *)
  | Failed.     (* a command threw; the rest of the body was skipped *)

(** [push], [expire] and [trim] are how the three commands end. *)
Definition addMessageToSession (env : Env) (construct probe : Outcome)
    (push expire trim : Outcome) (sessionId : string) (message : Json)
    (w : World) : AppendResult * World :=
  match getRedisClient env construct probe w with
  | (None, w) => (Skipped, log SkippingSessionStorage w)
  | (Some _, w) =>
      let key := historyKey sessionId in
      match rpushCmd push key (JSON_stringify message) w with
      | None => (Failed, log ErrorAddingMessage w)
      | Some w1 =>
          match expire with
          | Throws _ => (Failed, log ErrorAddingMessage w1)
          | Succeeds =>
              match ltrimCmd trim key (-50) (-1) w1 with
              | None => (Failed, log ErrorAddingMessage w1)
              | Some w2 => (Stored, w2)
              end
          end
      end
  end.

(** The log of a session as the store holds it. *)
Definition sessionLog (w : World) (sessionId : string) : list (Text Json) :=
  match store w !! historyKey sessionId with
  | Some (VList items) => items
  | _ => []
  end.

(** *** Caching *)

Definition searchKey (query : string) : string :=
  "search:" +:+ Embeddings.toBase64 (Embeddings.Buffer_from query).

(** [msg.includes("WRONGPASS") || msg.includes("Unauthorized")] *)
Definition authError (message : string) : bool :=
  includes message "WRONGPASS" || includes message "Unauthorized".

(** The warning guarded by [redisErrorLogged]. *)
Definition warnOnce (line : LogLine) (w : World) : World :=
  if redisErrorLogged (state w) then w
  else log line (setState (markErrorLogged (state w)) w).

(** [set] is how [setex]/[set] ends.  The expiry of the entry after [ttl]
    seconds is not modelled. *)
Definition cacheSearchResults (env : Env) (construct probe set : Outcome)
    (query : string) (results : Json) (ttl : Z) (w : World) : World :=
  match getRedisClient env construct probe w with
  | (None, w) => w
  | (Some _, w) =>
      match set with
      | Succeeds =>
          setStore
            (<[searchKey query := VString (JSON_stringify results)]> (store w))
            w
      | Throws message =>
          if authError message then
            warnOnce AuthErrorWhileCaching
              (setState (disableWrite (state w)) w)
          else log ErrorCaching w
      end
  end.

(** [getJson] on what the client handed over for the stored text [t]:
    [null] ([None]) for a falsy value and when the second [JSON.parse]
    throws, else the value that it gives. *)
Definition getJson (parseString : Json -> option Json) (t : Text Json)
  : option Json :=
  if truthy (deserialize t) then parseAgain parseString t else None.

(** [get] is how [client.get] ends; the result [None] is [null]. *)
Definition getCachedSearchResults (parseString : Json -> option Json)
    (env : Env) (construct get : Outcome)
    (query : string) (w : World) : option Json * World :=
  match getReadOnlyRedisClient env construct w with
  | (None, w) => (None, w)
  | (Some _, w) =>
      match get with
      | Succeeds =>
          match store w !! searchKey query with
          | Some (VString t) => (getJson parseString t, w)
          | Some (VList _) => (None, log ErrorGettingCache w)
          | None => (None, w)
          end
      | Throws message =>
          if authError message then
            (None,
             warnOnce AuthErrorOnRead (setState (disableRead (state w)) w))
          else (None, log ErrorGettingCache w)
      end
  end.

Example ltrim_tail : ltrim 1 (-1) [1; 2; 3]%nat = [2; 3]%nat.
Proof. reflexivity. Qed.

Example ltrim_out_of_range : ltrim 5 10 [1; 2; 3]%nat = [].
Proof. reflexivity. Qed.

Example ltrim_clamped : ltrim (-100) 100 [1; 2; 3]%nat = [1; 2; 3]%nat.
Proof. reflexivity. Qed.

(** *** The session log is capped *)

Lemma ltrim_last_50 {A} (l : list A) :
  ltrim (-50) (-1) l = skipn (length l - 50) l.
Proof.
  unfold ltrim. cbn [Z.ltb Z.compare].
  set (llen := Z.of_nat (length l)).
  assert (Hl : llen = Z.of_nat (length l)) by reflexivity.
  destruct (llen + -50 <? 0)%Z eqn:Hstart.
  - apply Z.ltb_lt in Hstart.
    replace (length l - 50)%nat with 0%nat by lia.
    destruct ((llen + -1 <? 0)%Z || (llen <=? 0)%Z) eqn:Hempty.
    + destruct l; [reflexivity|]. simpl in Hl.
      apply orb_true_iff in Hempty as [H|H];
        [apply Z.ltb_lt in H|apply Z.leb_le in H]; lia.
    + apply orb_false_iff in Hempty as [H1 H2].
      apply Z.ltb_ge in H1. apply Z.leb_gt in H2.
      assert (Hclamp : (llen <=? llen + -1)%Z = false)
        by (apply Z.leb_gt; lia).
      rewrite Hclamp. change (Z.to_nat 0) with 0%nat. rewrite skipn_O.
      apply firstn_all2. lia.
  - apply Z.ltb_ge in Hstart.
    assert (H1 : (llen + -1 <? llen + -50)%Z = false)
      by (apply Z.ltb_ge; lia).
    assert (H2 : (llen <=? llen + -50)%Z = false) by (apply Z.leb_gt; lia).
    assert (H3 : (llen <=? llen + -1)%Z = false) by (apply Z.leb_gt; lia).
    rewrite H1, H2, H3. cbn [orb].
    replace (Z.to_nat (llen + -50)) with (length l - 50)%nat by lia.
    apply firstn_all2. rewrite length_skipn. lia.
Qed.

Lemma ltrim_last_50_length {A} (l : list A) :
  (length (ltrim (-50) (-1) l) <= 50)%nat.
Proof. rewrite ltrim_last_50, length_skipn. lia. Qed.

Lemma lrange_all {A} (l : list A) : lrange 0 (-1) l = l.
Proof.
  unfold lrange, ltrim. cbn [Z.ltb Z.compare].
  set (llen := Z.of_nat (length l)).
  assert (Hl : llen = Z.of_nat (length l)) by reflexivity.
  destruct l as [|x l]; [reflexivity|]. simpl length in Hl.
  assert (H1 : (llen + -1 <? 0)%Z = false) by (apply Z.ltb_ge; lia).
  assert (H2 : (llen <=? 0)%Z = false) by (apply Z.leb_gt; lia).
  assert (H3 : (llen <=? llen + -1)%Z = false) by (apply Z.leb_gt; lia).
  rewrite H1, H2, H3. cbn [orb]. change (Z.to_nat 0) with 0%nat.
  rewrite skipn_O. apply firstn_all2. simpl length. lia.
Qed.

Lemma ltrimCmd_session_length o sessionId w w' :
  ltrimCmd o (historyKey sessionId) (-50) (-1) w = Some w' ->
  (length (sessionLog w' sessionId) <= 50)%nat.
Proof.
  unfold ltrimCmd, sessionLog. destruct o; [|done].
  destruct (store w !! historyKey sessionId) as [[t|items]|] eqn:Hget;
    try done.
  - pose proof (ltrim_last_50_length items) as Hlen.
    destruct (ltrim (-50) (-1) items) as [|x kept]; intros [= <-]; simpl.
    + rewrite lookup_delete_eq. simpl. lia.
    + rewrite lookup_insert_eq. exact Hlen.
  - intros [= <-]. rewrite Hget. simpl. lia.
Qed.

Lemma addMessageToSession_Stored_inv
    env construct probe push expire trim sessionId message w w' :
  addMessageToSession env construct probe push expire trim sessionId message w
  = (Stored, w') ->
  exists w1, ltrimCmd trim (historyKey sessionId) (-50) (-1) w1 = Some w'.
Proof.
  unfold addMessageToSession.
  destruct (getRedisClient env construct probe w) as [[client|] w0]; [|done].
  destruct (rpushCmd push _ _ w0) as [w1|]; [|done].
  destruct expire; [|done].
  destruct (ltrimCmd trim _ _ _ w1) as [w2|] eqn:Htrim; [|done].
  intros [= <-]. eauto.
Qed.

Lemma rpushCmd_log o sessionId item w w1 :
  rpushCmd o (historyKey sessionId) item w = Some w1 ->
  sessionLog w1 sessionId = sessionLog w sessionId ++ [item].
Proof.
  unfold rpushCmd, sessionLog. destruct o; [|done].
  destruct (store w !! historyKey sessionId) as [[t|items]|] eqn:Hget;
    [done| |]; intros [= <-]; cbn [store setStore];
    by rewrite lookup_insert_eq.
Qed.

Lemma getRedisClient_log env construct probe w sessionId :
  sessionLog (snd (getRedisClient env construct probe w)) sessionId
  = sessionLog w sessionId.
Proof.
  unfold getRedisClient, sessionLog.
  destruct (redisDisabled (state w)); [done|].
  destruct (redisClient (state w)); [done|].
  destruct (present (KV_REST_API_URL env)); [|done].
  destruct (present (KV_REST_API_TOKEN env)); [|done].
  destruct construct; [|done]. destruct probe; [|done].
  cbn [snd store log setStore setState]. by rewrite lookup_insert_ne.
Qed.

(** C5 (as amended). A call of [addMessageToSession] whose push, expire
    and trim all went through leaves at most 50 entries in the log of the
    session, whatever the log held before.  A call that found no client
    leaves the log as it was.  A call in which a command threw has
    returned all the same, and it leaves the log as it was or with the
    new entry at its end, not trimmed. *)
Theorem addMessageToSession_log_at_most_50
    (env : Env) (construct probe push expire trim : Outcome)
    (sessionId : string) (message : Json) (w : World) :
  let '(result, w') :=
    addMessageToSession env construct probe push expire trim
      sessionId message w in
  match result with
  | Stored => (length (sessionLog w' sessionId) <= 50)%nat
  | Skipped => sessionLog w' sessionId = sessionLog w sessionId
  | Failed =>
      sessionLog w' sessionId = sessionLog w sessionId \/
      sessionLog w' sessionId
      = sessionLog w sessionId ++ [Wellformed message]
  end.
Proof.
  unfold addMessageToSession.
  pose proof (getRedisClient_log env construct probe w sessionId) as Hlog.
  destruct (getRedisClient env construct probe w) as [[client|] w0];
    cbn [snd] in Hlog; [|exact Hlog].
  destruct (rpushCmd push _ _ w0) as [w1|] eqn:Hpush; [|by left].
  apply rpushCmd_log in Hpush. unfold JSON_stringify in Hpush.
  destruct expire; [|right; by rewrite <- Hlog].
  destruct (ltrimCmd trim _ _ _ w1) as [w2|] eqn:Htrim;
    [|right; by rewrite <- Hlog].
  by eapply ltrimCmd_session_length.
Qed.

(** *** A session of 60 entries, and a configured environment *)

Definition configuredEnv : Env :=
  {| KV_REST_API_URL := Some "https://kv.example"%string;
     KV_REST_API_TOKEN := Some "token"%string;
     KV_REST_API_READ_ONLY_TOKEN := None |}.

Definition emptyEnv : Env :=
  {| KV_REST_API_URL := None; KV_REST_API_TOKEN := None;
     KV_REST_API_READ_ONLY_TOKEN := None |}.

Definition freshWorld : World :=
  {| state := initialState false; store := ∅; console := [] |}.

Definition longSession : World :=
  setStore
    {[ historyKey "s1" := VList (repeat (Wellformed (JString "hi")) 60) ]}
    freshWorld.

Definition afterAppend : World :=
  snd (addMessageToSession configuredEnv Succeeds Succeeds
         Succeeds Succeeds Succeeds "s1" (JString "bye") longSession).

Lemma addMessageToSession_log_at_most_50_witness :
  (length (sessionLog afterAppend "s1") <= 50)%nat.
Proof.
  exact (addMessageToSession_log_at_most_50 configuredEnv Succeeds Succeeds
           Succeeds Succeeds Succeeds "s1" (JString "bye") longSession).
Defined.

(** A session that holds 50 entries. *)
Definition fullSession : World :=
  setStore
    {[ historyKey "s1" := VList (repeat (Wellformed (JString "hi")) 50) ]}
    freshWorld.

(** C5 fails as stated: a call whose [EXPIRE] throws after the push has
    gone through returns like every other call and leaves 51 entries; the
    next call, when it goes through, trims the log again. *)
Lemma addMessageToSession_untrimmed_after_failure :
  fst (addMessageToSession configuredEnv Succeeds Succeeds
         Succeeds (Throws "timeout") Succeeds "s1" (JString "bye") fullSession)
  = Failed /\
  length (sessionLog
            (snd (addMessageToSession configuredEnv Succeeds Succeeds
                    Succeeds (Throws "timeout") Succeeds
                    "s1" (JString "bye") fullSession)) "s1")
  = 51%nat.
Proof. split; vm_compute; reflexivity. Qed.

Example afterAppend_log :
  sessionLog afterAppend "s1"
  = repeat (Wellformed (JString "hi")) 49 ++ [Wellformed (JString "bye")].
Proof. vm_compute. reflexivity. Qed.

(** With a client at hand and the three commands going through, the call
    completes and leaves the 50 most recent entries. *)
Lemma addMessageToSession_ready
    env construct probe sessionId message w client :
  redisDisabled (state w) = false ->
  redisClient (state w) = Some client ->
  (forall t, store w !! historyKey sessionId <> Some (VString t)) ->
  exists w',
    addMessageToSession env construct probe Succeeds Succeeds Succeeds
      sessionId message w = (Stored, w') /\
    sessionLog w' sessionId
    = skipn (length (sessionLog w sessionId) + 1 - 50)
        (sessionLog w sessionId ++ [Wellformed message]).
Proof.
  intros Hon Hclient Hlist.
  unfold addMessageToSession, getRedisClient. rewrite Hon, Hclient.
  unfold rpushCmd, sessionLog at 2 3, JSON_stringify.
  set (key := historyKey sessionId) in *.
  assert (Htrim : forall items m,
    items <> [] ->
    exists w',
      ltrimCmd Succeeds key (-50) (-1)
        (setStore (<[key := VList items]> m) w) = Some w' /\
      sessionLog w' sessionId = skipn (length items - 50) items).
  { intros items m Hne. unfold ltrimCmd. cbn [store setStore].
    rewrite lookup_insert_eq, ltrim_last_50.
    assert (Hkept : skipn (length items - 50) items <> []).
    { intros Hnil. apply (f_equal length) in Hnil.
      rewrite length_skipn in Hnil. simpl in Hnil.
      destruct items; [done|simpl in Hnil; lia]. }
    destruct (skipn (length items - 50) items) as [|x kept] eqn:Hk; [done|].
    eexists. split; [reflexivity|].
    unfold sessionLog. cbn [store setStore]. fold key.
    by rewrite lookup_insert_eq. }
  destruct (store w !! key) as [[t|items]|] eqn:Hget.
  - by destruct (Hlist t).
  - destruct (Htrim (items ++ [Wellformed message]) (store w))
      as (w' & -> & Hlog); [by destruct items|].
    exists w'. split; [reflexivity|].
    rewrite Hlog, length_app. reflexivity.
  - destruct (Htrim [Wellformed message] (store w))
      as (w' & -> & Hlog); [done|].
    exists w'. split; [reflexivity|]. exact Hlog.
Qed.

(** *** Malformed records *)

Definition isWellformed {A} (t : Text A) : bool :=
  match t with
  | Wellformed _ => true
  | Malformed _ => false
  end.

(** The values of the well-formed texts, in order. *)
Fixpoint wellformedValues {A} (items : list (Text A)) : list A :=
  match items with
  | [] => []
  | Wellformed value :: rest => value :: wellformedValues rest
  | Malformed _ :: rest => wellformedValues rest
  end.

(** The entries of a session are read one by one. *)
Lemma parseHistory_app parseString l1 l2 :
  parseHistory parseString (l1 ++ l2)
  = parseHistory parseString l1 ++ parseHistory parseString l2.
Proof. unfold parseHistory. by rewrite map_app, List.filter_app. Qed.

Lemma parseHistory_cons parseString item rest :
  parseHistory parseString (item :: rest)
  = parseHistory parseString [item] ++ parseHistory parseString rest.
Proof. apply (parseHistory_app parseString [item] rest). Qed.

Lemma parseHistory_malformed parseString raw :
  parseHistory parseString [Malformed raw] = [].
Proof. reflexivity. Qed.

Lemma JSON_parse_array_all_or_nothing {A} (records : list (Text A)) :
  JSON_parse_array records
  = if forallb isWellformed records then Some (wellformedValues records)
    else None.
Proof.
  induction records as [|[value|raw] records IH]; simpl; [done| |done].
  rewrite IH. by destruct (forallb _ _).
Qed.

(** C6 (as amended). [getSessionHistory] reads the entries of a session
    one by one: what it returns is made of what each entry gives, in
    order, so an entry that cannot be parsed is skipped by itself and
    changes nothing for the entries before and after it.
    [loadEmbeddedChunks] parses the corpus as one document: it returns every
    record when all of them are well-formed, and nothing as soon as one
    record is malformed. *)
Theorem malformed_records_skipped_in_history_only :
  (forall parseString env construct sessionId w client w1 items,
     getReadOnlyRedisClient env construct w = (Some client, w1) ->
     store w1 !! historyKey sessionId = Some (VList items) ->
     getSessionHistory parseString env construct Succeeds sessionId w
     = (parseHistory parseString items, w1)) /\
  (forall parseString before raw after,
     parseHistory parseString (before ++ Malformed raw :: after)
     = parseHistory parseString before ++ parseHistory parseString after) /\
  (forall parseString before after,
     parseHistory parseString (before ++ after)
     = parseHistory parseString before ++ parseHistory parseString after) /\
  (forall (records : list (Text VectorStore.EmbeddedChunk)) st,
     VectorStore.embeddedChunks st = None ->
     fst (VectorStore.loadEmbeddedChunks (VectorStore.Records records) st)
     = if forallb isWellformed records then wellformedValues records
       else []).
Proof.
  split; [|split; [|split]].
  - intros parseString env construct sessionId w client w1 items Hclient Hget.
    unfold getSessionHistory. by rewrite Hclient, Hget, lrange_all.
  - intros parseString before raw after.
    by rewrite parseHistory_app, parseHistory_cons, parseHistory_malformed.
  - intros parseString before after. apply parseHistory_app.
  - intros records st Hnone. unfold VectorStore.loadEmbeddedChunks.
    rewrite Hnone, JSON_parse_array_all_or_nothing.
    by destruct (forallb _ _).
Qed.

Definition notLoaded : VectorStore.Loader :=
  {| VectorStore.embeddedChunks := None;
     VectorStore.embeddedWarningLogged := false |}.

(** C6 fails as stated: one malformed record between two well-formed
    ones leaves the corpus empty. *)
Lemma loadEmbeddedChunks_one_bad_record_empties_corpus :
  fst (VectorStore.loadEmbeddedChunks
         (VectorStore.Records
            [Wellformed VectorStore.oldChunk; Malformed "{";
             Wellformed VectorStore.freshChunk])
         notLoaded)
  = [] /\
  wellformedValues
    [Wellformed VectorStore.oldChunk; Malformed "{";
     Wellformed VectorStore.freshChunk]
  = [VectorStore.oldChunk; VectorStore.freshChunk].
Proof. split; reflexivity. Qed.

(** Stands for [JSON.parse] where no entry is a string or an array, so
    that it is never consulted. *)
Definition noStrings : Json -> option Json := fun _ => None.

(** Three texts as a session: the unparsable one is skipped and the two
    numbers around it come back. *)
Example parseHistory_one_bad_entry :
  parseHistory noStrings
    [Wellformed (JNumber 1); Malformed "{"; Wellformed (JNumber 2)]
  = [JNumber 1; JNumber 2].
Proof. reflexivity. Qed.

(** The messages that [addMessageToSession] is given are objects.  The
    client hands each of them over as an object, the second [JSON.parse]
    throws on it, and the entry is dropped like an unparsable one. *)
Example parseHistory_objects :
  parseHistory noStrings
    [Wellformed (JObject [("role", JString "user")]); Malformed "{";
     Wellformed (JObject [("role", JString "assistant")])]
  = [].
Proof. reflexivity. Qed.

(** *** Missing configuration and the disabled flag *)

Definition writeConfigMissing (env : Env) : Prop :=
  present (KV_REST_API_URL env) = None \/
  present (KV_REST_API_TOKEN env) = None.

Lemma getRedisClient_missing env construct probe w :
  redisDisabled (state w) = false ->
  redisClient (state w) = None ->
  writeConfigMissing env ->
  getRedisClient env construct probe w
  = (None, log MissingWriteEnvironment (log EnvironmentCheck w)).
Proof.
  intros Hon Hnone Hmiss. unfold getRedisClient. rewrite Hon, Hnone.
  destruct Hmiss as [-> | ->]; [reflexivity|].
  by destruct (present (KV_REST_API_URL env)).
Qed.

Lemma getRedisClient_disabled env construct probe w :
  redisDisabled (state w) = true ->
  getRedisClient env construct probe w = (None, w).
Proof. intros Hoff. unfold getRedisClient. by rewrite Hoff. Qed.

Lemma getReadOnlyRedisClient_disabled env construct w :
  redisDisabled (state w) = true ->
  getReadOnlyRedisClient env construct w = (None, w).
Proof. intros Hoff. unfold getReadOnlyRedisClient. by rewrite Hoff. Qed.

(** C7 (as amended). When the URL or the token is missing at a call that
    has to build the write client, the call is a no-op that logs the
    condition: nothing is sent to the store and the module state, the
    disabled flag included, is left as it was, so the condition is logged
    at every such call and a later call made with the configuration
    present builds the client.  The flag is set when the construction of
    the client or its test write fails; once it is set, every get and set
    is a no-op, whatever the configuration. *)
Theorem missing_configuration_is_not_remembered
    (env : Env) (construct probe : Outcome) (w : World) :
  (redisDisabled (state w) = false ->
   redisClient (state w) = None ->
   writeConfigMissing env ->
   getRedisClient env construct probe w
   = (None, log MissingWriteEnvironment (log EnvironmentCheck w)) /\
   forall set query results ttl,
     cacheSearchResults env construct probe set query results ttl w
     = log MissingWriteEnvironment (log EnvironmentCheck w)) /\
  (redisDisabled (state w) = false ->
   redisClient (state w) = None ->
   forall url token,
     present (KV_REST_API_URL env) = Some url ->
     present (KV_REST_API_TOKEN env) = Some token ->
     fst (getRedisClient env Succeeds Succeeds w)
     = Some {| clientUrl := url; clientToken := token |} /\
     forall message,
       redisDisabled
         (state (snd (getRedisClient env Succeeds (Throws message) w)))
       = true /\
       redisDisabled
         (state (snd (getRedisClient env (Throws message) probe w)))
       = true) /\
  (redisDisabled (state w) = true ->
   getRedisClient env construct probe w = (None, w) /\
   getReadOnlyRedisClient env construct w = (None, w) /\
   (forall set query results ttl,
      cacheSearchResults env construct probe set query results ttl w = w) /\
   (forall parseString get query,
      getCachedSearchResults parseString env construct get query w
      = (None, w))).
Proof.
  split; [|split].
  - intros Hon Hnone Hmiss.
    pose proof (getRedisClient_missing env construct probe w Hon Hnone Hmiss)
      as Hget.
    split; [exact Hget|]. intros set query results ttl.
    unfold cacheSearchResults. by rewrite Hget.
  - intros Hon Hnone url token Hurl Htoken.
    unfold getRedisClient. by rewrite Hon, Hnone, Hurl, Htoken.
  - intros Hoff.
    pose proof (getRedisClient_disabled env construct probe w Hoff) as Hw.
    pose proof (getReadOnlyRedisClient_disabled env construct w Hoff) as Hr.
    repeat split; try done.
    + intros set query results ttl. unfold cacheSearchResults.
      by rewrite Hw.
    + intros parseString get query. unfold getCachedSearchResults.
      by rewrite Hr.
Qed.

(** Two calls without configuration, then one with it. *)
Definition afterFirstMiss : World :=
  cacheSearchResults emptyEnv Succeeds Succeeds Succeeds
    "election" (JArray []) 300 freshWorld.

Definition afterSecondMiss : World :=
  cacheSearchResults emptyEnv Succeeds Succeeds Succeeds
    "election" (JArray []) 300 afterFirstMiss.

Definition afterConfigured : World :=
  cacheSearchResults configuredEnv Succeeds Succeeds Succeeds
    "election" (JArray []) 300 afterSecondMiss.

(** C7 fails as stated: the first use without configuration leaves the
    layer enabled, the second logs the condition again, and the call made
    once the configuration is there builds the client and writes the
    entry. *)
Lemma missing_configuration_retried_and_logged_again :
  redisDisabled (state afterFirstMiss) = false /\
  console afterSecondMiss
  = [EnvironmentCheck; MissingWriteEnvironment;
     EnvironmentCheck; MissingWriteEnvironment] /\
  redisClient (state afterConfigured)
  = Some {| clientUrl := "https://kv.example"; clientToken := "token" |} /\
  store afterConfigured !! searchKey "election"
  = Some (VString (Wellformed (JArray []))).
Proof. vm_compute. auto. Qed.

Definition storedSession : World :=
  setStore
    {[ historyKey "s1" :=
         VList [Wellformed (JNumber 1); Malformed "{";
                Wellformed (JNumber 2)] ]}
    freshWorld.

Lemma malformed_records_skipped_in_history_only_witness :
  fst (getSessionHistory noStrings configuredEnv Succeeds Succeeds
         "s1" storedSession)
  = [JNumber 1; JNumber 2].
Proof.
  destruct malformed_records_skipped_in_history_only as (Hread & _ & _).
  eapply eq_trans.
  - apply (f_equal fst). eapply (Hread noStrings).
    + unfold getReadOnlyRedisClient. cbn. reflexivity.
    + vm_compute. reflexivity.
  - reflexivity.
Defined.

Lemma missing_configuration_is_not_remembered_witness :
  cacheSearchResults emptyEnv Succeeds Succeeds Succeeds
    "election" (JArray []) 300 freshWorld
  = log MissingWriteEnvironment (log EnvironmentCheck freshWorld).
Proof.
  destruct (missing_configuration_is_not_remembered
              emptyEnv Succeeds Succeeds freshWorld) as (Hmiss & _ & _).
  apply Hmiss; [reflexivity|reflexivity|by left].
Defined.

End Redis.

(** ** More of the vector store: similarity, relevance and search *)

Module Ranking.
Import Js VectorStore.
Local Open Scope R_scope.

(** *** [cosineSimilarity] *)

Lemma dotProduct_nil_r a : dotProduct a [] = 0.
Proof. unfold dotProduct. by rewrite combine_nil. Qed.

Lemma dotProduct_comm a : forall b, dotProduct a b = dotProduct b a.
Proof.
  induction a as [|x a IH]; intros [|y b]; try reflexivity.
  rewrite !dotProduct_cons, IH. lra.
Qed.

(** X1. The similarity does not depend on the order of its two arguments. *)
Theorem cosineSimilarity_symmetric (a b : list R) :
  cosineSimilarity a b = cosineSimilarity b a.
Proof.
  unfold cosineSimilarity. rewrite (Nat.eqb_sym (length b)).
  destruct (negb _); [reflexivity|]. rewrite (dotProduct_comm a b).
  destruct (Req_dec_T (magnitude a) 0), (Req_dec_T (magnitude b) 0);
    try reflexivity.
  by rewrite (Rmult_comm (magnitude a)).
Qed.

(** *** [calculateRelevanceScore] *)

(** X3. A higher similarity never lowers the relevance of a chunk: the
    score at the higher similarity is never the smaller one, and for a
    chunk whose publication date is a date it is at least the other
    score. *)
Theorem calculateRelevanceScore_monotone
    (now : Z) (c : EmbeddedChunk) (query : string) (sim1 sim2 : R) :
  sim1 <= sim2 ->
  js_gt (calculateRelevanceScore now c query sim1)
        (calculateRelevanceScore now c query sim2) = false /\
  (dated c ->
   number_le (calculateRelevanceScore now c query sim1)
             (calculateRelevanceScore now c query sim2)).
Proof.
  intros Hle. unfold dated, calculateRelevanceScore.
  destruct (pubDate (metadata c)) as [pub|]; [|by split].
  assert (Hmin : Rmin (sim1 * 0.7 + recencyScore now pub * 0.2
                       + titleScore query (title (metadata c)) * 0.1) 1
                 <= Rmin (sim2 * 0.7 + recencyScore now pub * 0.2
                          + titleScore query (title (metadata c)) * 0.1) 1)
    by (apply Rle_min_compat_r; lra).
  split; [by apply gtb_false|by intros _].
Qed.

Lemma calculateRelevanceScore_monotone_witness :
  number_le (calculateRelevanceScore day31 oldChunk "news" 0)
            (calculateRelevanceScore day31 oldChunk "news" (5 / 13)).
Proof.
  apply (calculateRelevanceScore_monotone day31 oldChunk "news" 0 (5 / 13));
    [lra|done].
Defined.

Lemma msPerDay_pos : 0 < msPerDay.
Proof. unfold msPerDay. lra. Qed.

(** X4. The recency bonus is 1 at the time of publication, decays to 0 over 30
    days and stays 0 afterwards; for a chunk dated in the future it exceeds
    1. *)
Theorem recencyScore_decay (now pub : Z) :
  recencyScore pub pub = 1 /\
  ((pub <= now)%Z -> 0 <= recencyScore now pub <= 1) /\
  ((30 * 86400000 <= now - pub)%Z -> recencyScore now pub = 0) /\
  ((now < pub)%Z -> 1 < recencyScore now pub).
Proof.
  pose proof msPerDay_pos as Hms.
  unfold recencyScore.
  assert (Hdiv : forall z, IZR z / msPerDay / 30 = IZR z / (msPerDay * 30))
    by (intros z; field; lra).
  assert (Hpos : 0 < msPerDay * 30) by lra.
  split; [|split; [|split]].
  - rewrite Z.sub_diag. unfold Rdiv at 2. rewrite Rmult_0_l.
    unfold Rdiv. rewrite Rmult_0_l, Rminus_0_r. apply Rmax_right. lra.
  - intros Hle. split; [apply Rmax_l|].
    apply Rmax_lub; [lra|]. rewrite Hdiv.
    assert (0 <= IZR (now - pub)) by (apply IZR_le; lia).
    assert (0 <= IZR (now - pub) / (msPerDay * 30)).
    { apply Rmult_le_pos; [done|]. left. by apply Rinv_0_lt_compat. }
    lra.
  - intros Hold. apply Rmax_left. rewrite Hdiv.
    apply IZR_le in Hold.
    assert (1 <= IZR (now - pub) / (msPerDay * 30)).
    { apply (Rmult_le_reg_r (msPerDay * 30)); [done|].
      unfold Rdiv. rewrite Rmult_assoc, Rinv_l by lra.
      unfold msPerDay. rewrite mult_IZR in Hold. lra. }
    lra.
  - intros Hfuture. rewrite Hdiv.
    assert (IZR (now - pub) < 0) by (apply IZR_lt; lia).
    assert (IZR (now - pub) / (msPerDay * 30) < 0).
    { apply (Rmult_lt_reg_r (msPerDay * 30)); [done|].
      unfold Rdiv. rewrite Rmult_assoc, Rinv_l by lra. lra. }
    eapply Rlt_le_trans; [|apply Rmax_r]. lra.
Qed.

(** *** Title overlap *)

Lemma prefix_refl s : String.prefix s s = true.
Proof.
  induction s as [|c s IH]; [reflexivity|]. simpl.
  destruct (Ascii.ascii_dec c c); [exact IH|done].
Qed.

Lemma includes_refl s : includes s s = true.
Proof. destruct s; cbn [includes]; by rewrite prefix_refl. Qed.

Lemma includes_empty_word s : includes s "" = true.
Proof. by destruct s. Qed.

(** X5. A query that repeats the title gets the whole title bonus, and so does
    the empty query, whose single empty word is found in every title. *)
Theorem titleScore_full_bonus (str : string) :
  titleScore str str = 1 /\ titleScore "" str = 1.
Proof.
  split.
  - unfold titleScore, titleMatches.
    set (words := split_ws (toLowerCase str)).
    assert (Hall : List.filter
              (fun word => existsb (fun titleWord => includes titleWord word)
                             words) words = words).
    { apply forallb_filter_id. apply forallb_forall. intros w Hw.
      apply existsb_exists. exists w. split; [exact Hw|apply includes_refl]. }
    rewrite Hall.
    pose proof (split_ws_length (toLowerCase str)) as Hlen. fold words in Hlen.
    apply le_INR in Hlen. simpl in Hlen. field. lra.
  - unfold titleScore, titleMatches. cbn [toLowerCase split_ws split_ws_from].
    pose proof (split_ws_length (toLowerCase str)) as Hlen.
    destruct (split_ws (toLowerCase str)) as [|t ts]; [simpl in Hlen; lia|].
    cbn [List.filter existsb]. rewrite includes_empty_word. simpl. lra.
Qed.

(** *** [searchSimilarChunks] *)

Lemma firstn_succ {A} (k : nat) : forall l : list A,
  firstn (S k) l = firstn k l ++ firstn 1 (skipn k l).
Proof.
  induction k as [|k IH]; intros [|x l]; try reflexivity.
  cbn [firstn skipn app]. by rewrite <- IH.
Qed.

(** X6. Asking for one more result only appends: the answer for [topK] is the
    beginning of the answer for [topK + 1], which has at most one result
    more. *)
Theorem searchSimilarChunks_grows_by_appending
    (chunks : list EmbeddedChunk) (now : Z) (queryEmbedding : list R)
    (query : string) (topK : nat) :
  exists more,
    searchSimilarChunks chunks now queryEmbedding query (S topK)
    = searchSimilarChunks chunks now queryEmbedding query topK ++ more /\
    (length more <= 1)%nat.
Proof.
  rewrite !searchSimilarChunks_unfold. set (ranked := js_sort _ _).
  rewrite firstn_succ, List.filter_app. eexists. split; [reflexivity|].
  etransitivity; [apply filter_length_le|].
  rewrite length_firstn. lia.
Qed.

Lemma search_results_scored
    (chunks : list EmbeddedChunk) (now : Z) (queryEmbedding : list R)
    (query : string) (topK : nat) :
  Forall
    (fun result =>
       In (chunk result) chunks /\
       result = scoreChunk now queryEmbedding query (chunk result) /\
       0.1 < similarity result /\
       (dated (chunk result) ->
        exists score,
          relevanceScore result = Finite score /\ 0.07 < score <= 1) /\
       (~ dated (chunk result) -> relevanceScore result = NaN))
    (searchSimilarChunks chunks now queryEmbedding query topK).
Proof.
  rewrite searchSimilarChunks_unfold. apply List.Forall_forall.
  intros result Hin. apply filter_In in Hin as [Hin Hsim].
  apply gtb_true in Hsim.
  assert (Hranked : In result
            (js_sort byRelevanceDesc
               (map (scoreChunk now queryEmbedding query) chunks))).
  { revert Hin. generalize (js_sort byRelevanceDesc
      (map (scoreChunk now queryEmbedding query) chunks)) as l.
    induction topK as [|k IH]; intros [|x l]; simpl; try tauto.
    intros [->|Hin]; [by left|right; by apply IH]. }
  eapply Permutation_in in Hranked; [|apply js_sort_perm].
  apply in_map_iff in Hranked as (c & <- & Hc).
  split; [exact Hc|]. split; [reflexivity|]. split; [exact Hsim|].
  cbn [scoreChunk relevanceScore similarity chunk] in *.
  unfold dated. destruct (pubDate (metadata c)) as [pub|] eqn:Hpub.
  - split; [|by intros []]. intros _.
    exists (datedScore now pub c query
              (cosineSimilarity queryEmbedding (embedding c))).
    split; [by apply calculateRelevanceScore_dated|].
    split; [|apply datedScore_le_1].
    eapply Rlt_le_trans; [|apply datedScore_lower].
    apply Rmin_glb_lt; lra.
  - split; [by intros []|]. intros _.
    by apply calculateRelevanceScore_undated.
Qed.


Lemma search_results_length
    (chunks : list EmbeddedChunk) (now : Z) (queryEmbedding : list R)
    (query : string) (topK : nat) :
  (length (searchSimilarChunks chunks now queryEmbedding query topK)
   <= topK)%nat.
Proof.
  rewrite searchSimilarChunks_unfold.
  etransitivity; [apply filter_length_le|]. rewrite length_firstn. lia.
Qed.

(** X7. Every result is a chunk of the corpus with its two scores.  Its
    similarity is above 0.1; its relevance is a number above 0.07 and not
    above 1 when the publication date of the chunk is a date, and [NaN]
    when it is none. *)
Theorem searchSimilarChunks_results_scored_from_corpus
    (chunks : list EmbeddedChunk) (now : Z) (queryEmbedding : list R)
    (query : string) (topK : nat) :
  Forall
    (fun result =>
       In (chunk result) chunks /\
       result = scoreChunk now queryEmbedding query (chunk result) /\
       0.1 < similarity result /\
       (dated (chunk result) ->
        exists score,
          relevanceScore result = Finite score /\ 0.07 < score <= 1) /\
       (~ dated (chunk result) -> relevanceScore result = NaN))
    (searchSimilarChunks chunks now queryEmbedding query topK).
Proof. apply search_results_scored. Qed.

(** X8. With [topK] at least the size of the corpus the cut removes nothing:
    every chunk of similarity above 0.1 is returned. *)
Theorem searchSimilarChunks_complete_for_large_k
    (chunks : list EmbeddedChunk) (now : Z) (queryEmbedding : list R)
    (query : string) (topK : nat) (c : EmbeddedChunk) :
  (length chunks <= topK)%nat ->
  In c chunks ->
  0.1 < cosineSimilarity queryEmbedding (embedding c) ->
  In (scoreChunk now queryEmbedding query c)
    (searchSimilarChunks chunks now queryEmbedding query topK).
Proof.
  intros Hk Hc Hsim. rewrite searchSimilarChunks_unfold.
  apply filter_In. split.
  - rewrite firstn_all2.
    + eapply Permutation_in; [symmetry; apply js_sort_perm|].
      by apply in_map.
    + rewrite (Permutation_length (js_sort_perm _ _)), length_map. exact Hk.
  - apply gtb_true. exact Hsim.
Qed.

Lemma searchSimilarChunks_complete_for_large_k_witness :
  In (scoreChunk day31 queryVector "news" oldChunk)
    (searchSimilarChunks [oldChunk; freshChunk] day31 queryVector "news" 2).
Proof.
  apply (searchSimilarChunks_complete_for_large_k
           [oldChunk; freshChunk] day31 queryVector "news" 2 oldChunk).
  - simpl. lia.
  - by left.
  - rewrite similarity_old. lra.
Defined.

(** The two-chunk corpus with both places kept: the old chunk passes the
    threshold, the fresh one does not. *)
Lemma search_two_chunks :
  searchSimilarChunks [oldChunk; freshChunk] day31 queryVector "news" 2
  = [oldResult].
Proof.
  unfold searchSimilarChunks. cbn [map].
  rewrite scoreChunk_fresh, scoreChunk_old.
  unfold byRelevanceDesc, passesThreshold.
  repeat (cbn [js_sort sort_insert firstn List.filter relevanceScore
               similarity freshResult oldResult js_sub js_add js_neg js_gt];
          decide_gtb).
  reflexivity.
Qed.

(** *** [loadEmbeddedChunks] *)

(** X9. The corpus is read once.  After a load that kept an array (an
    empty one included) every later call returns the same chunks without
    looking at the file.  A load that keeps nothing returns the empty
    corpus, and the next call reads the file again: so it is when the file
    is missing or cannot be parsed, where the warning flag is raised, and
    when the file holds a falsy value such as [null], where the state is
    left as it was and no warning is given. *)
Theorem loadEmbeddedChunks_reads_the_file_once
    (file file' : CorpusFile) (st : Loader) :
  let '(chunks, st') := loadEmbeddedChunks file st in
  (embeddedChunks st' <> None ->
   loadEmbeddedChunks file' st' = (chunks, st')) /\
  (embeddedChunks st' = None ->
   chunks = [] /\
   fst (loadEmbeddedChunks file' st') = fst (loadEmbeddedChunks file' st) /\
   (file <> FalsyValue -> embeddedWarningLogged st' = true) /\
   (file = FalsyValue -> st' = st)).
Proof.
  unfold loadEmbeddedChunks.
  destruct (embeddedChunks st) as [loaded|] eqn:Hst.
  - rewrite Hst. split; [done|]. intros [=].
  - destruct file as [|records|].
    + cbn [embeddedChunks warned embeddedWarningLogged]. rewrite Hst.
      split; [done|]. intros _. split; [done|]. split; [|done].
      destruct file' as [|records'|]; try done.
      by destruct (JSON_parse_array records').
    + destruct (JSON_parse_array records) as [parsed|].
      * cbn [embeddedChunks]. split; [done|]. intros [=].
      * cbn [embeddedChunks warned embeddedWarningLogged]. rewrite Hst.
        split; [done|]. intros _. split; [done|]. split; [|done].
        destruct file' as [|records'|]; try done.
        by destruct (JSON_parse_array records').
    + rewrite Hst. split; [done|]. intros _. by repeat split.
Qed.

End Ranking.

(** ** [getRAGContext] and [expandQuery] *)

Module RagContext.
Import Js VectorStore.
Local Open Scope R_scope.

(** The line feed of the template strings. *)
Definition nl : string := String (ascii_of_nat 10) EmptyString.

Record Rag : Type := {
  context : string;
  sources : list string;
  chunks : list SearchResult;
  summary : string
}.

(** [`${chunk.metadata.source}-${chunk.metadata.title}`] *)
Definition articleKey (result : SearchResult) : string :=
  source (metadata (chunk result)) +:+ "-" +:+ title (metadata (chunk result)).

(** The body of [similarChunks.forEach]: the [Map] keeps its keys in the
    order of their first insertion. *)
Fixpoint pushToGroup (key : string) (result : SearchResult)
    (groups : list (string * list SearchResult))
  : list (string * list SearchResult) :=
  match groups with
  | [] => [(key, [result])]
  | (k, members) :: rest =>
      if String.eqb k key then (k, members ++ [result]) :: rest
      else (k, members) :: pushToGroup key result rest
  end.

Definition groupByArticle (similarChunks : list SearchResult)
  : list (string * list SearchResult) :=
  fold_left (fun groups result => pushToGroup (articleKey result) result groups)
    similarChunks [].

(** [Array.from(new Set(sources))]: the first occurrence of each string. *)
Fixpoint uniqueFrom (seen : list string) (l : list string) : list string :=
  match l with
  | [] => []
  | x :: rest =>
      if existsb (String.eqb x) seen then uniqueFrom seen rest
      else x :: uniqueFrom (x :: seen) rest
  end.

Definition unique (l : list string) : list string := uniqueFrom [] l.

(** [join(sep)] *)
Definition join (sep : string) (parts : list string) : string :=
  String.concat sep parts.

(** [similarChunks.reduce((sum, chunk) => sum + chunk.relevanceScore, 0) /
    similarChunks.length] *)
Definition avgRelevance (similarChunks : list SearchResult) : number :=
  js_div_by
    (fold_left (fun sum result => js_add sum (relevanceScore result))
       similarChunks (Finite 0))
    (INR (length similarChunks)).

Section Formatting.

(** The formatting left to the engine: [toLocaleDateString()] of the date
    read from [pubDate] (of the invalid date for [None]),
    [(x * 100).toFixed(1)] and the decimal form of a count. *)
Variable toLocaleDateString : option Z -> string.
Variable percent : number -> string.
Variable decimal : nat -> string.

(** The first chunk of a group; a group is never empty
    ([groupByArticle_members] below). *)
Definition primaryChunk (members : list SearchResult) : option SearchResult :=
  head members.

Definition contextPart (members : list SearchResult) : string :=
  match primaryChunk members with
  | Some primary =>
      let articleText := join " " (map (fun c => text (chunk c)) members) in
      "Article: " +:+ title (metadata (chunk primary)) +:+ nl +:+
      "Source: " +:+ source (metadata (chunk primary)) +:+ nl +:+
      "Published: "
        +:+ toLocaleDateString (pubDate (metadata (chunk primary))) +:+ nl +:+
      "Content: " +:+ articleText +:+ nl +:+
      "Relevance: " +:+ percent (relevanceScore primary) +:+ "%"
  | None => ""
  end.

Definition sourceLine (members : list SearchResult) : string :=
  match primaryChunk members with
  | Some primary =>
      source (metadata (chunk primary)) +:+ " - "
        +:+ title (metadata (chunk primary))
  | None => ""
  end.

(** The part of [getRAGContext] after the search. *)
Definition buildContext (similarChunks : list SearchResult) : Rag :=
  match similarChunks with
  | [] =>
      {| context := "No relevant news articles found for this query.";
         sources := [];
         chunks := [];
         summary := "No relevant information available." |}
  | _ =>
      let articleGroups := groupByArticle similarChunks in
      let contextParts := map (fun g => contextPart (snd g)) articleGroups in
      let sourceLines := map (fun g => sourceLine (snd g)) articleGroups in
      {| context := join (nl +:+ nl +:+ "---" +:+ nl +:+ nl) contextParts;
         sources := unique sourceLines;
         chunks := similarChunks;
         summary :=
           "Found " +:+ decimal (length similarChunks)
           +:+ " relevant passages from "
           +:+ decimal (length articleGroups)
           +:+ " news articles with average relevance of "
           +:+ percent (avgRelevance similarChunks) +:+ "%." |}
  end.

Definition getRAGContext
    (corpus : list EmbeddedChunk) (now : Z) (queryEmbedding : list R)
    (query : string) (topK : nat) : Rag :=
  buildContext (searchSimilarChunks corpus now queryEmbedding query topK).

End Formatting.

(** *** [expandQuery] *)

(** The entries of [synonymMap], in the order they are written. *)
Definition synonymMap : list (string * list string) :=
  [("technology", ["tech"; "digital"; "innovation"; "software"; "hardware"]);
   ("politics", ["political"; "government"; "policy"; "election"; "congress"]);
   ("economy", ["economic"; "financial"; "market"; "business"; "trade"]);
   ("health", ["medical"; "healthcare"; "disease"; "treatment"; "medicine"]);
   ("climate", ["environment"; "weather"; "global warming"; "sustainability"])]
  %string.

(** [s.substring(n)] *)
Fixpoint dropChars (n : nat) (s : string) : string :=
  match n, s with
  | S n', String _ s' => dropChars n' s'
  | _, _ => s
  end.

(** [s.replace(key, rep)] for a string [key] and a replacement without
    [$]: the first occurrence is replaced. *)
Fixpoint replace (s key rep : string) : string :=
  if String.prefix key s then rep +:+ dropChars (String.length key) s
  else
    match s with
    | EmptyString => EmptyString
    | String c s' => String c (replace s' key rep)
    end.

Definition expandQuery (query : string) : list string :=
  let baseQuery := toLowerCase query in
  let expansions :=
    fold_left
      (fun expansions entry =>
         let '(key, synonyms) := entry in
         if includes baseQuery key then
           expansions ++ map (fun syn => replace baseQuery key syn) synonyms
         else expansions)
      synonymMap [baseQuery] in
  firstn 3 expansions.

Example expandQuery_tech :
  expandQuery "Health technology"
  = ["health technology"; "health tech"; "health digital"]%string.
Proof. reflexivity. Qed.

Example expandQuery_plain : expandQuery "Weather" = ["weather"%string].
Proof. reflexivity. Qed.

Example replace_first_only :
  replace "health and health" "health" "medical" = "medical and health"%string.
Proof. reflexivity. Qed.

(** *** Grouping by article *)

Definition keyIs (k : string) (result : SearchResult) : bool :=
  String.eqb (articleKey result) k.

Lemma pushToGroup_keys key r groups :
  map fst (pushToGroup key r groups)
  = if existsb (String.eqb key) (map fst groups) then map fst groups
    else map fst groups ++ [key].
Proof.
  induction groups as [|[k members] rest IH]; [reflexivity|].
  cbn [pushToGroup map fst existsb].
  rewrite (String.eqb_sym key k).
  destruct (String.eqb k key) eqn:Hk; [reflexivity|].
  cbn [map fst orb]. rewrite IH. by destruct (existsb _ _).
Qed.

Lemma existsb_eqb_In key keys :
  existsb (String.eqb key) keys = true <-> In key keys.
Proof.
  rewrite existsb_exists. split.
  - intros (k & Hin & Heq). apply String.eqb_eq in Heq. by subst.
  - intros Hin. exists key. split; [done|apply String.eqb_refl].
Qed.

Lemma pushToGroup_In key r groups k members :
  List.NoDup (map fst groups) ->
  In (k, members) (pushToGroup key r groups) ->
  (k <> key /\ In (k, members) groups) \/
  (k = key /\
   ((exists old, In (key, old) groups /\ members = old ++ [r]) \/
    (~ In key (map fst groups) /\ members = [r]))).
Proof.
  induction groups as [|[k0 m0] rest IH]; intros Hnd Hin.
  - destruct Hin as [[= <- <-]|[]]. right. split; [done|]. right.
    split; [intros []|done].
  - cbn [map fst] in Hnd. apply List.NoDup_cons_iff in Hnd as [Hfresh Hnd].
    cbn [pushToGroup] in Hin.
    destruct (String.eqb k0 key) eqn:Hk.
    + apply String.eqb_eq in Hk. subst k0.
      destruct Hin as [[= <- <-]|Hin].
      * right. split; [done|]. left. exists m0. split; [by left|done].
      * left. split; [|by right].
        intros ->. apply Hfresh. apply in_map_iff. by exists (key, members).
    + apply String.eqb_neq in Hk.
      destruct Hin as [[= <- <-]|Hin].
      * left. split; [done|by left].
      * destruct (IH Hnd Hin) as [[Hne Hold]|[-> [(old & Hold & ->)|[Hnew ->]]]].
        -- left. split; [done|by right].
        -- right. split; [done|]. left. exists old. split; [by right|done].
        -- right. split; [done|]. right. split; [|done].
           cbn [map fst]. intros [Heq|Hin']; [by apply Hk|by apply Hnew].
Qed.

Lemma groupByArticle_snoc results r :
  groupByArticle (results ++ [r])
  = pushToGroup (articleKey r) r (groupByArticle results).
Proof. unfold groupByArticle. by rewrite fold_left_app. Qed.

Lemma filter_keyIs_snoc k results r :
  List.filter (keyIs k) (results ++ [r])
  = List.filter (keyIs k) results ++ (if keyIs k r then [r] else []).
Proof. rewrite List.filter_app. cbn [List.filter]. by destruct (keyIs k r). Qed.

(** The groups have distinct keys, every result falls under the key of a
    group, and the members of a group are the results with its key, in the
    order of the ranking. *)
Lemma groupByArticle_members results :
  List.NoDup (map fst (groupByArticle results)) /\
  (forall r, In r results ->
     In (articleKey r) (map fst (groupByArticle results))) /\
  (forall k members,
     In (k, members) (groupByArticle results) ->
     members = List.filter (keyIs k) results /\ members <> []).
Proof.
  induction results as [|r results (Hnd & Hcover & Hmem)] using rev_ind.
  - split; [constructor|]. split.
    + intros r Hr. destruct Hr.
    + intros k members Hin. destruct Hin.
  - rewrite groupByArticle_snoc.
    set (groups := groupByArticle results) in *.
    set (key := articleKey r).
    assert (Hkeys := pushToGroup_keys key r groups).
    split; [|split].
    + rewrite Hkeys. destruct (existsb _ _) eqn:Hex; [done|].
      apply List.NoDup_app; [done|repeat constructor; intros []|].
      intros k Hk [<-|[]]. apply existsb_eqb_In in Hk. congruence.
    + intros c Hc. rewrite Hkeys.
      assert (Hcase : In (articleKey c) (map fst groups) \/ articleKey c = key).
      { apply in_app_or in Hc as [Hc|[<-|[]]]; [left; by apply Hcover|by right]. }
      destruct (existsb _ _) eqn:Hex.
      * destruct Hcase as [?| ->]; [done|by apply existsb_eqb_In].
      * apply in_or_app. destruct Hcase as [?| ->]; [by left|right; by left].
    + intros k members Hin.
      apply pushToGroup_In in Hin
        as [[Hne Hold]|[-> [(old & Hold & ->)|[Hnew ->]]]]; [| | |done].
      * destruct (Hmem _ _ Hold) as [-> Hne']. rewrite filter_keyIs_snoc.
        assert (keyIs k r = false) as ->.
        { unfold keyIs. apply String.eqb_neq. fold key. congruence. }
        by rewrite app_nil_r.
      * destruct (Hmem _ _ Hold) as [-> _]. rewrite filter_keyIs_snoc.
        assert (keyIs key r = true) as -> by apply String.eqb_refl.
        split; [done|]. by destruct (List.filter _ _).
      * rewrite filter_keyIs_snoc.
        assert (keyIs key r = true) as -> by apply String.eqb_refl.
        assert (List.filter (keyIs key) results = []) as ->; [|done].
        destruct (List.filter (keyIs key) results) as [|c cs] eqn:Hf; [done|].
        assert (Hc : In c (List.filter (keyIs key) results))
          by (rewrite Hf; by left).
        apply filter_In in Hc as [Hc Hk]. apply String.eqb_eq in Hk.
        exfalso. apply Hnew. rewrite <- Hk. by apply Hcover.
Qed.

Lemma uniqueFrom_spec l : forall seen,
  List.NoDup (uniqueFrom seen l) /\
  (forall x, In x (uniqueFrom seen l) <-> In x l /\ ~ In x seen) /\
  (length (uniqueFrom seen l) <= length l)%nat.
Proof.
  induction l as [|y l IH]; intros seen.
  - split; [constructor|]. split; [|done]. intros x. simpl. tauto.
  - cbn [uniqueFrom]. destruct (existsb (String.eqb y) seen) eqn:Hseen.
    + apply existsb_eqb_In in Hseen.
      destruct (IH seen) as (Hnd & Hin & Hlen).
      split; [exact Hnd|]. split; [|simpl; lia].
      intros x. rewrite Hin. split; [intros [? ?]; split; [by right|done]|].
      intros [[->|Hx] Hns]; [done|by split].
    + assert (Hns : ~ In y seen).
      { intros Hy. apply existsb_eqb_In in Hy. congruence. }
      destruct (IH (y :: seen)) as (Hnd & Hin & Hlen).
      split; [|split; [|simpl; lia]].
      * constructor; [|exact Hnd]. rewrite Hin. intros [_ Hy].
        apply Hy. by left.
      * intros x. cbn [In]. rewrite Hin. cbn [In]. split.
        -- intros [->|[Hx Hn]]; [by split; [left|]|].
           split; [by right|]. tauto.
        -- intros [[->|Hx] Hn]; [by left|].
           destruct (string_dec y x) as [->|Hne]; [by left|].
           right. split; [done|]. intros [?|?]; [done|by apply Hn].
Qed.

(** The relevance of a result when it is a number. *)
Definition scoreValue (result : SearchResult) : R :=
  match relevanceScore result with
  | Finite score => score
  | _ => 0
  end.

Lemma fold_scoreValue_acc (l : list SearchResult) (acc : R) :
  fold_left (fun sum result => sum + scoreValue result) l acc
  = acc + fold_left (fun sum result => sum + scoreValue result) l 0.
Proof.
  revert acc. induction l as [|r l IH]; intros acc; simpl; [lra|].
  rewrite (IH (acc + _)), (IH (0 + _)). lra.
Qed.

Lemma fold_relevance_scored (l : list SearchResult) (acc : R) :
  Forall scored l ->
  fold_left (fun sum result => js_add sum (relevanceScore result)) l
    (Finite acc)
  = Finite (acc + fold_left (fun sum result => sum + scoreValue result) l 0).
Proof.
  intros Hall. revert acc.
  induction Hall as [|r l Hr Hl IH]; intros acc; cbn [fold_left].
  - f_equal. lra.
  - rewrite (fold_scoreValue_acc l (0 + _)).
    unfold scored in Hr. unfold scoreValue at 1.
    destruct (relevanceScore r) as [score| | |]; try done.
    cbn [js_add]. rewrite IH. f_equal. lra.
Qed.

Lemma fold_relevance_NaN (l : list SearchResult) :
  fold_left (fun sum result => js_add sum (relevanceScore result)) l NaN
  = NaN.
Proof. induction l as [|r l IH]; [done|]. cbn [fold_left js_add]. exact IH. Qed.

Lemma fold_relevance_unscored (l : list SearchResult) (acc : number) :
  Exists (fun result => relevanceScore result = NaN) l ->
  fold_left (fun sum result => js_add sum (relevanceScore result)) l acc
  = NaN.
Proof.
  intros Hex. revert acc.
  induction Hex as [r l Hr|r l Hl IH]; intros acc; cbn [fold_left].
  - rewrite Hr.
    replace (js_add acc NaN) with NaN by (by destruct acc).
    apply fold_relevance_NaN.
  - apply IH.
Qed.

Lemma avgRelevance_bounds (lo hi : R) (l : list SearchResult) :
  l <> [] ->
  Forall (fun r => exists score,
            relevanceScore r = Finite score /\ lo < score <= hi) l ->
  exists avg, avgRelevance l = Finite avg /\ lo < avg <= hi.
Proof.
  intros Hne Hall. unfold avgRelevance.
  assert (Hscored : Forall scored l).
  { eapply List.Forall_impl; [|exact Hall].
    intros r (score & Hr & _). unfold scored. by rewrite Hr. }
  rewrite (fold_relevance_scored l 0 Hscored), Rplus_0_l.
  set (total := fold_left _ l 0).
  assert (Hsum : INR (length l) * lo < total <= INR (length l) * hi).
  { subst total. clear Hscored.
    induction Hall as [|r l (score & Hr & Hscore) Hl IH]; [done|].
    cbn [fold_left].
    rewrite fold_scoreValue_acc.
    assert (Hv : scoreValue r = score) by (unfold scoreValue; by rewrite Hr).
    rewrite Hv.
    change (length (r :: l)) with (S (length l)). rewrite S_INR.
    destruct l as [|r' l'].
    - simpl. lra.
    - specialize (IH ltac:(done)). lra. }
  assert (Hn : 0 < INR (length l)).
  { apply lt_0_INR. destruct l; [done|simpl; lia]. }
  exists (total / INR (length l)). split.
  - cbn [js_div_by]. unfold js_div.
    destruct (Req_dec_T (INR (length l)) 0); [lra|done].
  - split.
    + apply (Rmult_lt_reg_r (INR (length l))); [done|].
      unfold Rdiv. rewrite Rmult_assoc, Rinv_l by lra. lra.
    + apply (Rmult_le_reg_r (INR (length l))); [done|].
      unfold Rdiv. rewrite Rmult_assoc, Rinv_l by lra. lra.
Qed.

Lemma group_primary results k members :
  In (k, members) (groupByArticle results) ->
  exists primary rest,
    members = primary :: rest /\
    In primary results /\ articleKey primary = k.
Proof.
  intros Hin.
  destruct (groupByArticle_members results) as (_ & _ & Hmem).
  destruct (Hmem _ _ Hin) as [Hfilter Hne].
  destruct members as [|primary rest]; [done|].
  exists primary, rest. split; [done|].
  assert (Hp : In primary (List.filter (keyIs k) results))
    by (rewrite <- Hfilter; by left).
  apply filter_In in Hp as [Hp Hk]. by apply String.eqb_eq in Hk.
Qed.

Section FormattingFacts.
Variable toLocaleDateString : option Z -> string.
Variable percent : number -> string.
Variable decimal : nat -> string.

(** X10. The sources of an answer are pairwise distinct, there are no more of
    them than returned chunks (hence at most [topK]), and each is the
    ["source - title"] line of a returned chunk. *)
Theorem getRAGContext_sources
    (corpus : list EmbeddedChunk) (now : Z) (queryEmbedding : list R)
    (query : string) (topK : nat) :
  let rag :=
    getRAGContext toLocaleDateString percent decimal
      corpus now queryEmbedding query topK in
  List.NoDup (sources rag) /\
  (length (sources rag) <= length (chunks rag))%nat /\
  (length (chunks rag) <= topK)%nat /\
  (forall line, In line (sources rag) ->
     exists result,
       In result (chunks rag) /\
       line = source (metadata (chunk result)) +:+ " - "
                +:+ title (metadata (chunk result))).
Proof.
  cbv zeta. unfold getRAGContext.
  pose proof (Ranking.search_results_length corpus now queryEmbedding query topK)
    as Hk.
  set (results := searchSimilarChunks _ _ _ _ _) in *.
  unfold buildContext. destruct results as [|r0 results'] eqn:Hres.
  { cbn [sources chunks]. split; [constructor|].
    split; [done|]. split; [simpl; lia|]. intros line []. }
  rewrite <- Hres in *. clear Hres. cbn [sources chunks].
  set (groups := groupByArticle results).
  destruct (groupByArticle_members results) as (Hnd & Hcover & Hmem).
  fold groups in Hnd, Hcover, Hmem.
  destruct (uniqueFrom_spec (map (fun g => sourceLine (snd g)) groups) [])
    as (Hnodup & Hin & Hlen).
  split; [exact Hnodup|]. split; [|split; [exact Hk|]].
  - etransitivity; [exact Hlen|]. rewrite length_map.
    rewrite <- (length_map fst groups), <- (length_map articleKey results).
    apply NoDup_incl_length; [exact Hnd|].
    intros k Hkin. apply in_map_iff in Hkin as ([k' members] & <- & Hg).
    destruct (group_primary _ _ _ Hg) as (primary & rest & _ & Hp & <-).
    cbn [fst]. by apply in_map.
  - intros line Hline. apply Hin in Hline as [Hline _].
    apply in_map_iff in Hline as ([k members] & <- & Hg).
    destruct (group_primary _ _ _ Hg) as (primary & rest & -> & Hp & _).
    exists primary. split; [exact Hp|reflexivity].
Qed.


(** X12. When the search returns something, the average relevance printed
    in the summary is a number above 7% and not above 100% if the
    publication date of every returned chunk is a date, and it is [NaN]
    if one of them has none. *)
Theorem getRAGContext_average_relevance
    (corpus : list EmbeddedChunk) (now : Z) (queryEmbedding : list R)
    (query : string) (topK : nat) :
  searchSimilarChunks corpus now queryEmbedding query topK <> [] ->
  (Forall (fun result => dated (chunk result))
     (searchSimilarChunks corpus now queryEmbedding query topK) ->
   exists avg,
     avgRelevance (searchSimilarChunks corpus now queryEmbedding query topK)
     = Finite avg /\
     0.07 < avg <= 1) /\
  (Exists (fun result => ~ dated (chunk result))
     (searchSimilarChunks corpus now queryEmbedding query topK) ->
   avgRelevance (searchSimilarChunks corpus now queryEmbedding query topK)
   = NaN).
Proof.
  intros Hne.
  pose proof (Ranking.search_results_scored
                corpus now queryEmbedding query topK) as Hscored.
  set (results := searchSimilarChunks _ _ _ _ _) in *.
  rewrite List.Forall_forall in Hscored. split.
  - intros Hdated. apply avgRelevance_bounds; [exact Hne|].
    rewrite List.Forall_forall in Hdated. apply List.Forall_forall.
    intros r Hr. destruct (Hscored r Hr) as (_ & _ & _ & Hnum & _).
    by apply Hnum, Hdated.
  - intros Hundated. unfold avgRelevance.
    rewrite fold_relevance_unscored; [reflexivity|].
    apply List.Exists_exists in Hundated as (r & Hr & Hnone).
    apply List.Exists_exists. exists r. split; [exact Hr|].
    destruct (Hscored r Hr) as (_ & _ & _ & _ & Hnan). by apply Hnan.
Qed.

(** X13. With an empty corpus, or when no chunk passes the cut and the
    threshold, the answer is the fixed "nothing found" text with no source
    and no chunk. *)
Theorem getRAGContext_nothing_found
    (corpus : list EmbeddedChunk) (now : Z) (queryEmbedding : list R)
    (query : string) (topK : nat) :
  let nothing :=
    {| context := "No relevant news articles found for this query.";
       sources := []; chunks := [];
       summary := "No relevant information available." |} in
  getRAGContext toLocaleDateString percent decimal
    [] now queryEmbedding query topK = nothing /\
  getRAGContext toLocaleDateString percent decimal
    corpus now queryEmbedding query 0 = nothing /\
  (Forall (fun c => cosineSimilarity queryEmbedding (embedding c) <= 0.1)
     corpus ->
   getRAGContext toLocaleDateString percent decimal
     corpus now queryEmbedding query topK = nothing).
Proof.
  cbv zeta. unfold getRAGContext. split; [reflexivity|]. split.
  - rewrite searchSimilarChunks_unfold. reflexivity.
  - intros Hlow.
    assert (Hnone : searchSimilarChunks corpus now queryEmbedding query topK
                    = []); [|by rewrite Hnone].
    pose proof (Ranking.search_results_scored
                  corpus now queryEmbedding query topK) as Hall.
    destruct (searchSimilarChunks _ _ _ _ _) as [|r rs] eqn:Hres; [done|].
    exfalso. apply Forall_inv in Hall as (Hc & Hr & _).
    rewrite List.Forall_forall in Hlow. specialize (Hlow _ Hc).
    assert (Hsim : 0.1 < similarity r).
    { assert (Hin : In r (searchSimilarChunks corpus now queryEmbedding
                            query topK)) by (rewrite Hres; by left).
      rewrite searchSimilarChunks_unfold in Hin.
      apply filter_In in Hin as [_ Hs]. by apply gtb_true in Hs. }
    rewrite Hr in Hsim. cbn [similarity scoreChunk] in Hsim. lra.
Qed.

End FormattingFacts.






Lemma getRAGContext_average_relevance_witness :
  exists avg,
    avgRelevance
      (searchSimilarChunks [oldChunk; freshChunk] day31 queryVector "news" 2)
    = Finite avg /\
    0.07 < avg <= 1.
Proof.
  apply (getRAGContext_average_relevance
           [oldChunk; freshChunk] day31 queryVector "news" 2).
  - rewrite Ranking.search_two_chunks. discriminate.
  - rewrite Ranking.search_two_chunks. by repeat constructor.
Defined.

(** *** [expandQuery] *)

(** The first topic of [synonymMap] whose name occurs in the query. *)
Definition firstTopic (baseQuery : string) : option (string * list string) :=
  find (fun entry => includes baseQuery (fst entry)) synonymMap.

(** X14. The answer starts with the query in lower case and holds at most three
    strings.  When no topic name occurs in the query it is the query alone;
    otherwise exactly two variants follow, made with the first two synonyms
    of the first topic that occurs: the other synonyms and the other topics
    are never used. *)
Theorem expandQuery_first_topic_only (query : string) :
  expandQuery query
  = match firstTopic (toLowerCase query) with
    | None => [toLowerCase query]
    | Some (key, synonyms) =>
        toLowerCase query
        :: map (fun syn => replace (toLowerCase query) key syn)
             (firstn 2 synonyms)
    end /\
  (1 <= length (expandQuery query) <= 3)%nat /\
  head (expandQuery query) = Some (toLowerCase query).
Proof.
  unfold expandQuery, firstTopic, synonymMap.
  set (base := toLowerCase query).
  cbn [fold_left find fst].
  destruct (includes base "technology"), (includes base "politics"),
           (includes base "economy"), (includes base "health"),
           (includes base "climate");
    cbn [app map firstn length head]; repeat split; lia.
Qed.

End RagContext.

(** ** More of the embedding provider: hash, cache, base64 *)

Module Fallback.
Import Js Embeddings.
Local Open Scope Z_scope.

(** *** [hashString] *)

Lemma toInt32_range z : - 2 ^ 31 <= toInt32 z < 2 ^ 31.
Proof.
  unfold toInt32. pose proof (Z.mod_pos_bound z (2 ^ 32) ltac:(lia)) as Hm.
  destruct (z mod 2 ^ 32 <? 2 ^ 31) eqn:Hlt;
    [apply Z.ltb_lt in Hlt|apply Z.ltb_ge in Hlt]; lia.
Qed.

Lemma toInt32_shift z m : toInt32 (z + 2 ^ 32 * m) = toInt32 z.
Proof.
  unfold toInt32. by rewrite (Z.mul_comm (2 ^ 32)), Z_mod_plus_full.
Qed.

Lemma toInt32_decomp z : exists m, toInt32 z = z + 2 ^ 32 * m.
Proof.
  unfold toInt32. pose proof (Z.div_mod z (2 ^ 32) ltac:(lia)) as Hz.
  destruct (z mod 2 ^ 32 <? 2 ^ 31).
  - exists (- (z / 2 ^ 32)). lia.
  - exists (- (z / 2 ^ 32) - 1). lia.
Qed.

(** One round multiplies by 31 and adds the character, in 32 bits. *)
Lemma hashStep_31 h c : hashStep (toInt32 h) c = toInt32 (31 * h + charCodeAt c).
Proof.
  unfold hashStep. rewrite Z.land_diag, Z.shiftl_mul_pow2 by lia.
  destruct (toInt32_decomp h) as [m1 H1].
  destruct (toInt32_decomp (toInt32 h)) as [m2 H2].
  destruct (toInt32_decomp (toInt32 (toInt32 h) * 2 ^ 5)) as [m3 H3].
  rewrite H3, H2, H1.
  replace ((h + 2 ^ 32 * m1 + 2 ^ 32 * m2) * 2 ^ 5 + 2 ^ 32 * m3
           - (h + 2 ^ 32 * m1) + charCodeAt c)
    with (31 * h + charCodeAt c
          + 2 ^ 32 * (32 * m1 + 32 * m2 + m3 - m1)) by ring.
  apply toInt32_shift.
Qed.

Lemma fold_hashStep_31 (chars : list ascii) : forall h,
  fold_left hashStep chars (toInt32 h)
  = toInt32 (fold_left (fun acc c => 31 * acc + charCodeAt c) chars h).
Proof.
  induction chars as [|c chars IH]; intros h; [reflexivity|].
  cbn [fold_left]. by rewrite hashStep_31, IH.
Qed.

(** X15. [hashString] is the usual polynomial string hash with multiplier 31,
    reduced to a signed 32-bit integer, in absolute value; so it lies
    between 0 and 2^31, and the remainder that gives the position of a
    write is taken of a number that is not negative and is a valid index of
    the 768 slots. *)
Theorem hashString_polynomial_and_range (str : string) :
  hashString str
  = Z.abs
      (toInt32
         (fold_left (fun acc c => 31 * acc + charCodeAt c)
            (list_ascii_of_string str) 0)) /\
  0 <= hashString str <= 2 ^ 31 /\
  (forall i wordIndex : nat,
     0 <= hashString str + Z.of_nat i + Z.of_nat wordIndex /\
     (Z.to_nat
        ((hashString str + Z.of_nat i + Z.of_nat wordIndex) mod 768)
      < dimension)%nat).
Proof.
  assert (Hpoly : hashString str
    = Z.abs (toInt32 (fold_left (fun acc c => 31 * acc + charCodeAt c)
                        (list_ascii_of_string str) 0))).
  { unfold hashString. f_equal.
    change 0 with (toInt32 0) at 1. apply fold_hashStep_31. }
  split; [exact Hpoly|].
  assert (Hrange : 0 <= hashString str <= 2 ^ 31).
  { rewrite Hpoly.
    pose proof (toInt32_range (fold_left (fun acc c => 31 * acc + charCodeAt c)
                                 (list_ascii_of_string str) 0)). lia. }
  split; [exact Hrange|]. intros i wordIndex. split; [lia|].
  unfold dimension.
  pose proof (Z.mod_pos_bound
                (hashString str + Z.of_nat i + Z.of_nat wordIndex) 768
                ltac:(lia)). lia.
Qed.

Example hashString_overflow :
  hashString "polygenelubricants" = 2147483648.
Proof. reflexivity. Qed.

(** *** The fallback vector *)

(** *** [createEmbedding] and its cache *)



(** An item without embedding: the first call returns the fallback, the
    second one [undefined]. *)
Example createEmbedding_caches_undefined :
  fst (createEmbedding (Some "key") (Body (Some [None])) ∅ "news")
  = Some (createDeterministicEmbedding "news") /\
  fst (createEmbedding (Some "key") (Body (Some [None]))
         (snd (createEmbedding (Some "key") (Body (Some [None])) ∅ "news"))
         "news")
  = None.
Proof. split; reflexivity. Qed.

(** *** Base64 is reversible *)

Fixpoint indexOf (c : ascii) (s : string) (i : Z) : Z :=
  match s with
  | EmptyString => -1
  | String d s' => if Ascii.eqb c d then i else indexOf c s' (i + 1)
  end.

(** The value of a base64 digit. *)
Definition base64Value (c : ascii) : Z := indexOf c base64Alphabet 0.

Definition isPad (c : ascii) : bool := Ascii.eqb c "="%char.

(** A decoder, used to show that nothing is lost by [base64Chars]. *)
Fixpoint unbase64 (chars : list ascii) : list Z :=
  match chars with
  | c1 :: c2 :: c3 :: c4 :: rest =>
      let b1 :=
        Z.lor (Z.shiftl (base64Value c1) 2) (Z.shiftr (base64Value c2) 4) in
      let b2 :=
        Z.lor (Z.shiftl (Z.land (base64Value c2) 15) 4)
          (Z.shiftr (base64Value c3) 2) in
      let b3 :=
        Z.lor (Z.shiftl (Z.land (base64Value c3) 3) 6) (base64Value c4) in
      if isPad c3 then [b1]
      else if isPad c4 then [b1; b2]
      else b1 :: b2 :: b3 :: unbase64 rest
  | _ => []
  end.

Definition isByte (b : Z) : Prop := 0 <= b < 256.

(** Checking a property of one or two bytes on all their values. *)
Lemma all_bytes (P : Z -> bool) :
  forallb (fun n => P (Z.of_nat n)) (seq 0 256) = true ->
  forall b, isByte b -> P b = true.
Proof.
  intros Hall b Hb. rewrite forallb_forall in Hall.
  specialize (Hall (Z.to_nat b)). rewrite Z2Nat.id in Hall by (unfold isByte in Hb; lia).
  apply Hall, in_seq. unfold isByte in Hb. lia.
Qed.

Lemma all_byte_pairs (P : Z -> Z -> bool) :
  forallb (fun n => forallb (fun m => P (Z.of_nat n) (Z.of_nat m)) (seq 0 256))
    (seq 0 256) = true ->
  forall a b, isByte a -> isByte b -> P a b = true.
Proof.
  intros Hall a b Ha Hb.
  apply (all_bytes (fun a => P a b)); [|exact Ha].
  rewrite forallb_forall in *. intros n Hn. specialize (Hall n Hn).
  apply (all_bytes (fun b => P (Z.of_nat n) b)); [exact Hall|exact Hb].
Qed.

(** The first two digits and what the decoder reads from them. *)
Definition digit1 (a : Z) : ascii := base64Digit (Z.shiftr a 2).
Definition digit2 (a b : Z) : ascii :=
  base64Digit (Z.lor (Z.shiftl (Z.land a 3) 4) (Z.shiftr b 4)).
Definition digit3 (b c : Z) : ascii :=
  base64Digit (Z.lor (Z.shiftl (Z.land b 15) 2) (Z.shiftr c 6)).
Definition digit4 (c : Z) : ascii := base64Digit (Z.land c 63).

Lemma decode_first a b :
  isByte a -> isByte b ->
  (Z.lor (Z.shiftl (base64Value (digit1 a)) 2)
     (Z.shiftr (base64Value (digit2 a b)) 4) =? a)
  && (Z.land (base64Value (digit2 a b)) 15 =? Z.shiftr b 4) = true.
Proof.
  apply (all_byte_pairs (fun a b =>
    (Z.lor (Z.shiftl (base64Value (digit1 a)) 2)
       (Z.shiftr (base64Value (digit2 a b)) 4) =? a)
    && (Z.land (base64Value (digit2 a b)) 15 =? Z.shiftr b 4))).
  vm_compute. reflexivity.
Qed.

Lemma decode_last b c :
  isByte b -> isByte c ->
  (Z.lor (Z.shiftl (Z.shiftr b 4) 4) (Z.shiftr (base64Value (digit3 b c)) 2)
   =? b)
  && (Z.lor (Z.shiftl (Z.land (base64Value (digit3 b c)) 3) 6)
        (base64Value (digit4 c)) =? c)
  && negb (isPad (digit3 b c)) && negb (isPad (digit4 c)) = true.
Proof.
  apply (all_byte_pairs (fun b c =>
    (Z.lor (Z.shiftl (Z.shiftr b 4) 4)
       (Z.shiftr (base64Value (digit3 b c)) 2) =? b)
    && (Z.lor (Z.shiftl (Z.land (base64Value (digit3 b c)) 3) 6)
          (base64Value (digit4 c)) =? c)
    && negb (isPad (digit3 b c)) && negb (isPad (digit4 c)))).
  vm_compute. reflexivity.
Qed.

Lemma isByte_0 : isByte 0.
Proof. unfold isByte. lia. Qed.

Lemma base64Chars_one a :
  base64Chars [a] = [digit1 a; digit2 a 0; "="%char; "="%char].
Proof.
  cbn [base64Chars]. unfold digit1, digit2.
  by rewrite Z.shiftr_0_l, Z.lor_0_r.
Qed.

Lemma base64Chars_two a b :
  base64Chars [a; b] = [digit1 a; digit2 a b; digit3 b 0; "="%char].
Proof.
  cbn [base64Chars]. unfold digit1, digit2, digit3.
  by rewrite Z.shiftr_0_l, Z.lor_0_r.
Qed.

Lemma base64Chars_three a b c rest :
  base64Chars (a :: b :: c :: rest)
  = digit1 a :: digit2 a b :: digit3 b c :: digit4 c :: base64Chars rest.
Proof. reflexivity. Qed.

Lemma unbase64_base64Chars (n : nat) : forall bytes,
  (length bytes <= n)%nat ->
  Forall isByte bytes ->
  unbase64 (base64Chars bytes) = bytes.
Proof.
  induction n as [|n IH]; intros bytes Hlen Hall.
  { destruct bytes; [reflexivity|simpl in Hlen; lia]. }
  destruct bytes as [|a [|b [|c rest]]]; [reflexivity| | |].
  - apply Forall_inv in Hall as Ha.
    pose proof (decode_first a 0 Ha isByte_0) as H1.
    apply andb_true_iff in H1 as [H1 _]. apply Z.eqb_eq in H1.
    rewrite base64Chars_one. cbn [unbase64 isPad Ascii.eqb].
    change (Ascii.eqb "=" "=") with true. cbn iota. by rewrite H1.
  - apply Forall_inv in Hall as Ha.
    apply Forall_inv_tail, Forall_inv in Hall as Hb.
    pose proof (decode_first a b Ha Hb) as H1.
    apply andb_true_iff in H1 as [H1 H2].
    apply Z.eqb_eq in H1, H2.
    pose proof (decode_last b 0 Hb isByte_0) as H3.
    apply andb_true_iff in H3 as [H3 _].
    apply andb_true_iff in H3 as [H3 Hp3].
    apply andb_true_iff in H3 as [H3 _].
    apply Z.eqb_eq in H3. apply negb_true_iff in Hp3.
    rewrite base64Chars_two. cbn [unbase64]. rewrite Hp3.
    change (isPad "=") with true. cbn iota. by rewrite H1, H2, H3.
  - apply Forall_inv in Hall as Ha.
    apply Forall_inv_tail in Hall as Hall1. apply Forall_inv in Hall1 as Hb.
    apply Forall_inv_tail in Hall1 as Hall2. apply Forall_inv in Hall2 as Hc.
    apply Forall_inv_tail in Hall2 as Hrest.
    pose proof (decode_first a b Ha Hb) as H1.
    apply andb_true_iff in H1 as [H1 H2].
    apply Z.eqb_eq in H1, H2.
    pose proof (decode_last b c Hb Hc) as H3.
    apply andb_true_iff in H3 as [H3 Hp4].
    apply andb_true_iff in H3 as [H3 Hp3].
    apply andb_true_iff in H3 as [H3 H4].
    apply Z.eqb_eq in H3, H4. apply negb_true_iff in Hp3, Hp4.
    rewrite base64Chars_three. cbn [unbase64]. rewrite Hp3, Hp4.
    rewrite H1, H2, H3, H4. do 3 f_equal.
    apply IH; [simpl in Hlen; lia|exact Hrest].
Qed.

Lemma Buffer_from_bytes str : Forall isByte (Buffer_from str).
Proof.
  unfold Buffer_from. apply List.Forall_forall. intros b Hb.
  apply in_map_iff in Hb as (c & <- & _). unfold isByte, charCodeAt.
  pose proof (nat_ascii_bounded c). lia.
Qed.

Lemma Buffer_from_injective s1 s2 :
  Buffer_from s1 = Buffer_from s2 -> s1 = s2.
Proof.
  unfold Buffer_from. revert s2.
  induction s1 as [|c1 s1 IH]; intros [|c2 s2]; simpl; try done.
  intros [= Hc Hs]. f_equal; [|by apply IH].
  unfold charCodeAt in Hc. apply Nat2Z.inj in Hc.
  by rewrite <- (ascii_nat_embedding c1), <- (ascii_nat_embedding c2), Hc.
Qed.

(** [toString("base64")] loses nothing: two texts with the same encoding
    are the same text. *)
Lemma toBase64_injective s1 s2 :
  toBase64 (Buffer_from s1) = toBase64 (Buffer_from s2) -> s1 = s2.
Proof.
  intros Heq. unfold toBase64 in Heq.
  apply (f_equal list_ascii_of_string) in Heq.
  rewrite !list_ascii_of_string_of_list_ascii in Heq.
  apply (f_equal unbase64) in Heq.
  rewrite !(unbase64_base64Chars _ _ (Nat.le_refl _)) in Heq
    by apply Buffer_from_bytes.
  by apply Buffer_from_injective.
Qed.

End Fallback.

(** ** The fallback embedding of a text of one word *)

Module Normalisation.
Import Js Embeddings.
Local Open Scope R_scope.

Lemma sin_1_pos : 0 < sin 1.
Proof. apply sin_gt_0; [lra|]. pose proof PI2_1. lra. Qed.

(** The sines of two consecutive numbers are not both zero. *)
Lemma sin_consecutive x : sin x = 0 -> sin (x + 1) = 0 -> False.
Proof.
  intros H0 H1. rewrite sin_plus, H0 in H1.
  pose proof sin_1_pos. pose proof (sin2_cos2 x) as H2.
  unfold Rsqr in H2. rewrite H0 in H2.
  assert (cos x = 0) by nra. nra.
Qed.

Lemma fold_left_lookup_inv {B} (f : list R -> B -> list R) (p : nat) bs :
  (forall emb b, In b bs -> f emb b !! p = emb !! p) ->
  forall emb, fold_left f bs emb !! p = emb !! p.
Proof.
  induction bs as [|b bs IH]; intros Hf emb; simpl; [done|].
  rewrite IH; [apply Hf; by left|]. intros emb' b' Hin. apply Hf. by right.
Qed.

Lemma addAt_lookup_ne position v emb p :
  p <> position -> addAt position v emb !! p = emb !! p.
Proof. intros Hne. unfold addAt. by apply list_lookup_alter_ne. Qed.

Lemma addAt_lookup position v emb :
  addAt position v emb !! position = (fun x => x + v) <$> emb !! position.
Proof. unfold addAt. rewrite list_lookup_alter. by destruct (decide _). Qed.

Lemma addFeatures_lookup textLength uniqueChars emb p :
  (100 <= p)%nat ->
  addFeatures textLength uniqueChars emb !! p = emb !! p.
Proof.
  intros Hp. unfold addFeatures. apply fold_left_lookup_inv.
  intros e i Hin. apply in_seq in Hin. rewrite !addAt_lookup_ne by lia. done.
Qed.

Lemma lookup_repeat {A} (x : A) n p :
  (p < n)%nat -> repeat x n !! p = Some x.
Proof.
  revert p. induction n as [|n IH]; intros [|p] Hp; simpl; try lia; [done|].
  apply IH. lia.
Qed.

(** The place written at round [i] of the loop over a word. *)
Definition position (wordHash : Z) (i wordIndex : nat) : nat :=
  Z.to_nat ((wordHash + Z.of_nat i + Z.of_nat wordIndex) mod 768).

Lemma position_lt wordHash i wordIndex :
  (position wordHash i wordIndex < 768)%nat.
Proof.
  unfold position.
  pose proof (Z.mod_pos_bound (wordHash + Z.of_nat i + Z.of_nat wordIndex) 768).
  lia.
Qed.

(** The 768 rounds write 768 different places. *)
Lemma position_inj wordHash wordIndex i j :
  (i < 768)%nat -> (j < 768)%nat ->
  position wordHash i wordIndex = position wordHash j wordIndex -> i = j.
Proof.
  unfold position. intros Hi Hj Heq.
  pose proof (Z.mod_pos_bound (wordHash + Z.of_nat i + Z.of_nat wordIndex) 768).
  pose proof (Z.mod_pos_bound (wordHash + Z.of_nat j + Z.of_nat wordIndex) 768).
  apply Z2Nat.inj in Heq; [|lia|lia].
  rewrite (Z.mod_eq (wordHash + Z.of_nat i + Z.of_nat wordIndex) 768) in Heq by lia.
  rewrite (Z.mod_eq (wordHash + Z.of_nat j + Z.of_nat wordIndex) 768) in Heq by lia.
  lia.
Qed.

Lemma addWord_lookup word wordIndex i0 emb :
  (i0 < 768)%nat ->
  addWord emb (word, wordIndex) !! position (hashString word) i0 wordIndex
  = (fun x => x + sin (IZR (hashString word + Z.of_nat i0)) * 0.1)
      <$> emb !! position (hashString word) i0 wordIndex.
Proof.
  intros Hi0. unfold addWord.
  assert (Hseq : seq 0 dimension = seq 0 i0 ++ i0 :: seq (S i0) (767 - i0)).
  { unfold dimension. replace 768%nat with (i0 + S (767 - i0))%nat by lia.
    by rewrite seq_app. }
  rewrite Hseq, fold_left_app. cbn [fold_left].
  fold (position (hashString word) i0 wordIndex).
  rewrite fold_left_lookup_inv.
  - rewrite addAt_lookup. f_equal. apply fold_left_lookup_inv.
    intros e i Hin. apply in_seq in Hin.
    fold (position (hashString word) i wordIndex).
    apply addAt_lookup_ne. intros Heq. apply position_inj in Heq; lia.
  - intros e i Hin. apply in_seq in Hin.
    fold (position (hashString word) i wordIndex).
    apply addAt_lookup_ne. intros Heq. apply position_inj in Heq; lia.
Qed.

Lemma mod_768_shift (h k : Z) :
  (0 <= k < 768)%Z -> ((h + (k - h mod 768)) mod 768 = k)%Z.
Proof.
  intros Hk.
  replace (h + (k - h mod 768))%Z with (k + (h / 768) * 768)%Z
    by (rewrite (Z.mod_eq h 768); lia).
  rewrite Z_mod_plus_full. by apply Z.mod_small.
Qed.

(** Two consecutive rounds that write outside the first 100 places. *)
Lemma two_rounds_past_the_features (wordHash : Z) :
  exists i0 : nat,
    (i0 + 1 < 768)%nat /\
    (100 <= position wordHash i0 0)%nat /\
    (100 <= position wordHash (i0 + 1) 0)%nat.
Proof.
  unfold position. change (Z.of_nat 0) with 0%Z.
  pose proof (Z.mod_pos_bound wordHash 768) as Hr.
  assert (Hat : forall k : Z, (0 <= k - wordHash mod 768)%Z ->
    (0 <= k < 768)%Z ->
    Z.to_nat ((wordHash + Z.of_nat (Z.to_nat (k - wordHash mod 768)) + 0)
              mod 768) = Z.to_nat k).
  { intros k Hle Hk. by rewrite Z2Nat.id, Z.add_0_r, mod_768_shift. }
  destruct (Z_lt_dec (wordHash mod 768) 100) as [Hlow|Hhigh].
  - exists (Z.to_nat (100 - wordHash mod 768)). split; [lia|].
    replace (Z.to_nat (100 - wordHash mod 768) + 1)%nat
      with (Z.to_nat (101 - wordHash mod 768)) by lia.
    rewrite !Hat by lia. lia.
  - destruct (Z.eq_dec (wordHash mod 768)%Z 767%Z) as [Hlast|Hmid].
    + exists 101%nat. split; [lia|].
      replace (wordHash + Z.of_nat 101 + 0)%Z
        with (100 + (wordHash / 768 + 1) * 768)%Z
        by (rewrite (Z.mod_eq wordHash 768) in Hlast; lia).
      replace (wordHash + Z.of_nat (101 + 1) + 0)%Z
        with (101 + (wordHash / 768 + 1) * 768)%Z
        by (rewrite (Z.mod_eq wordHash 768) in Hlast; lia).
      rewrite !Z_mod_plus_full.
      change (100 mod 768)%Z with 100%Z. change (101 mod 768)%Z with 101%Z.
      lia.
    + exists 0%nat. split; [lia|].
      replace (wordHash + Z.of_nat 0 + 0)%Z with wordHash by lia.
      replace (wordHash + Z.of_nat (0 + 1) + 0)%Z
        with (wordHash mod 768 + 1 + (wordHash / 768) * 768)%Z
        by (rewrite (Z.mod_eq wordHash 768); lia).
      rewrite Z_mod_plus_full, (Z.mod_small (wordHash mod 768 + 1)) by lia.
      lia.
Qed.

Lemma rawEmbedding_one_word str word i0 :
  split_ws (toLowerCase str) = [word] ->
  (i0 < 768)%nat ->
  (100 <= position (hashString word) i0 0)%nat ->
  rawEmbedding str !! position (hashString word) i0 0
  = Some (0 + sin (IZR (hashString word + Z.of_nat i0)) * 0.1).
Proof.
  intros Hwords Hi0 Hp. unfold rawEmbedding. rewrite Hwords.
  rewrite addFeatures_lookup by done.
  cbn [length seq combine fold_left].
  rewrite addWord_lookup by done.
  by rewrite lookup_repeat by apply position_lt.
Qed.

Lemma rawEmbedding_one_word_nonzero str word :
  split_ws (toLowerCase str) = [word] -> norm (rawEmbedding str) <> 0.
Proof.
  intros Hwords Hnorm.
  apply VectorStore.magnitude_zero_iff in Hnorm.
  destruct (two_rounds_past_the_features (hashString word))
    as (i0 & Hi0 & Hp0 & Hp1).
  pose proof (rawEmbedding_one_word str word i0 Hwords ltac:(lia) Hp0) as H0.
  pose proof (rawEmbedding_one_word str word (i0 + 1) Hwords ltac:(lia) Hp1)
    as H1.
  rewrite Forall_lookup in Hnorm.
  apply Hnorm in H0. apply Hnorm in H1.
  apply (sin_consecutive (IZR (hashString word + Z.of_nat i0))); [lra|].
  replace (IZR (hashString word + Z.of_nat i0) + 1)
    with (IZR (hashString word + Z.of_nat (i0 + 1))); [lra|].
  rewrite Nat2Z.inj_add, Z.add_assoc, (plus_IZR _ (Z.of_nat 1)). done.
Qed.

(** A text without white space is one word for [split(/\s+/)]. *)
Definition noWhiteSpace (s : string) : bool :=
  forallb (fun c => negb (is_ws c)) (list_ascii_of_string s).

Lemma is_ws_lower c : is_ws (lower_ascii c) = is_ws c.
Proof. by destruct c as [[] [] [] [] [] [] [] []]. Qed.

Lemma noWhiteSpace_toLowerCase s :
  noWhiteSpace (toLowerCase s) = noWhiteSpace s.
Proof.
  unfold noWhiteSpace. induction s as [|c s IH]; [done|].
  cbn [toLowerCase list_ascii_of_string forallb]. by rewrite is_ws_lower, IH.
Qed.

Lemma append_cons_assoc (cur : string) c s :
  (cur +:+ String c EmptyString) +:+ s = cur +:+ String c s.
Proof.
  induction cur as [|d cur IH]; [done|].
  change (String d ((cur +:+ String c EmptyString) +:+ s)
          = String d (cur +:+ String c s)).
  by rewrite IH.
Qed.

Lemma split_ws_from_plain s : forall cur,
  noWhiteSpace s = true -> split_ws_from cur false s = [cur +:+ s].
Proof.
  unfold noWhiteSpace.
  induction s as [|c s IH]; intros cur Hs; cbn [split_ws_from].
  - f_equal. induction cur as [|d cur IHc]; [done|].
    change (String d cur = String d (cur +:+ EmptyString)). by rewrite <- IHc.
  - cbn [list_ascii_of_string forallb] in Hs.
    apply andb_true_iff in Hs as [Hc Hs].
    apply negb_true_iff in Hc. rewrite Hc, IH by done.
    by rewrite append_cons_assoc.
Qed.

Lemma split_ws_plain s : noWhiteSpace s = true -> split_ws s = [s].
Proof. intros Hs. unfold split_ws. by rewrite split_ws_from_plain. Qed.

(** X17. A text without white space (the empty text included) never meets the
    division by zero: its vector before the normalisation is not zero, so
    the fallback embedding has 768 finite components whose squares sum to
    1. *)
Theorem createDeterministicEmbedding_one_word_is_unit (str : string) :
  noWhiteSpace str = true ->
  norm (rawEmbedding str) <> 0 /\
  length (createDeterministicEmbedding str) = 768%nat /\
  exists vals,
    createDeterministicEmbedding str = map Finite vals /\
    VectorStore.sumsq vals = 1.
Proof.
  intros Hplain.
  assert (Hnz : norm (rawEmbedding str) <> 0).
  { apply (rawEmbedding_one_word_nonzero str (toLowerCase str)).
    apply split_ws_plain. by rewrite noWhiteSpace_toLowerCase. }
  split; [exact Hnz|]. split; [apply createDeterministicEmbedding_length|].
  destruct (normalize_unit _ Hnz) as [Hmap Hunit]. eauto.
Qed.

Lemma createDeterministicEmbedding_one_word_is_unit_witness :
  norm (rawEmbedding "Markets") <> 0 /\
  length (createDeterministicEmbedding "Markets") = 768%nat /\
  exists vals,
    createDeterministicEmbedding "Markets" = map Finite vals /\
    VectorStore.sumsq vals = 1.
Proof.
  apply (createDeterministicEmbedding_one_word_is_unit "Markets").
  reflexivity.
Defined.

End Normalisation.

(** ** More of the Redis wrapper: clearing, reading back, isolation, runs *)

Module Sessions.
Import Js Redis.

(** *** [clearSession] *)

(** The lines [clearSession] writes to the console. *)
Inductive ClearLine : Type :=
  | SkippedRemoteClear
  | ClearedSession (deleted : Z)
  | DelFailed.

(** [DEL key]: the number of keys removed. *)
Definition delCount (key : string) (w : World) : Z :=
  match store w !! key with
  | Some _ => 1%Z
  | None => 0%Z
  end.

(** [del] is how [client.del] ends.  The value returned, the world after
    the call and the lines written. *)
Definition clearSession (env : Env) (construct probe del : Outcome)
    (sessionId : string) (w : World) : bool * World * list ClearLine :=
  match getRedisClient env construct probe w with
  | (None, w) => (true, w, [SkippedRemoteClear])
  | (Some _, w) =>
      let key := historyKey sessionId in
      match del with
      | Succeeds =>
          (true, setStore (delete key (store w)) w,
           [ClearedSession (delCount key w)])
      | Throws _ => (true, w, [DelFailed])
      end
  end.

(** *** The session routes ([src/app/api/session/[sessionId]/route.ts]) *)

Inductive Reply : Type :=
  | ErrorReply (status : Z) (error : string)
  | HistoryReply (sessionId : string) (history : list Json) (count : nat)
  | ClearedReply (message : string) (sessionId : string).

(** The status of a reply; [NextResponse.json] without options answers
    200. *)
Definition status (r : Reply) : Z :=
  match r with
  | ErrorReply s _ => s
  | HistoryReply _ _ _ | ClearedReply _ _ => 200%Z
  end.

(** [params] is what [await context.params] gives: [None] when it
    rejects; [parseString] is [JSON.parse] on the strings the history
    read consults it for. *)
Definition GET (parseString : Json -> option Json) (params : option string)
    (env : Env) (construct range : Outcome) (w : World) : Reply * World :=
  match params with
  | None => (ErrorReply 500 "Internal server error", w)
  | Some sessionId =>
      if String.eqb sessionId "" then
        (ErrorReply 400 "Session ID is required", w)
      else
        let '(history, w) :=
          getSessionHistory parseString env construct range sessionId w in
        (HistoryReply sessionId history (length history), w)
  end.

Definition DELETE (params : option string) (env : Env)
    (construct probe del : Outcome) (w : World) : Reply * World :=
  match params with
  | None => (ErrorReply 500 "Internal server error", w)
  | Some sessionId =>
      if String.eqb sessionId "" then
        (ErrorReply 400 "Session ID is required", w)
      else
        let '(success, w, _) :=
          clearSession env construct probe del sessionId w in
        if success then
          (ClearedReply "Session cleared successfully" sessionId, w)
        else (ErrorReply 500 "Failed to clear session", w)
  end.

(** *** Sequences of calls *)

(** One call of an exported function, with the environment it finds and
    the way its outside calls end; a read carries what [JSON.parse] makes
    of the strings it is consulted for. *)
Inductive Call : Type :=
  | AddMessage (env : Env) (construct probe push expire trim : Outcome)
      (sessionId : string) (message : Json)
  | ReadHistory (parseString : Json -> option Json) (env : Env)
      (construct range : Outcome) (sessionId : string)
  | ClearSession (env : Env) (construct probe del : Outcome)
      (sessionId : string)
  | CacheResults (env : Env) (construct probe set : Outcome)
      (query : string) (results : Json) (ttl : Z)
  | ReadCache (parseString : Json -> option Json) (env : Env)
      (construct get : Outcome) (query : string).

Definition step (w : World) (c : Call) : World :=
  match c with
  | AddMessage env construct probe push expire trim sessionId message =>
      snd (addMessageToSession env construct probe push expire trim
             sessionId message w)
  | ReadHistory parseString env construct range sessionId =>
      snd (getSessionHistory parseString env construct range sessionId w)
  | ClearSession env construct probe del sessionId =>
      snd (fst (clearSession env construct probe del sessionId w))
  | CacheResults env construct probe set query results ttl =>
      cacheSearchResults env construct probe set query results ttl w
  | ReadCache parseString env construct get query =>
      snd (getCachedSearchResults parseString env construct get query w)
  end.

Definition run (calls : list Call) (w : World) : World :=
  fold_left step calls w.

(** The number of authorization warnings on the console. *)
Definition isAuthWarning (line : LogLine) : bool :=
  match line with
  | AuthErrorWhileCaching | AuthErrorOnRead => true
  | _ => false
  end.

Definition authWarnings (w : World) : nat :=
  length (List.filter isAuthWarning (console w)).

(** *** Keys *)

Lemma historyKey_not_healthcheck sessionId :
  historyKey sessionId <> "healthcheck"%string.
Proof. discriminate. Qed.

Lemma searchKey_not_healthcheck query :
  searchKey query <> "healthcheck"%string.
Proof. discriminate. Qed.

Lemma historyKey_not_searchKey sessionId query :
  historyKey sessionId <> searchKey query.
Proof. discriminate. Qed.

Lemma string_app_inv_tail (s1 s2 tail : string) :
  s1 +:+ tail = s2 +:+ tail -> s1 = s2.
Proof.
  intros Heq. apply (f_equal list_ascii_of_string) in Heq.
  assert (Happ : forall a b,
    list_ascii_of_string (a +:+ b)
    = list_ascii_of_string a ++ list_ascii_of_string b).
  { intros a b. induction a as [|c a IH]; simpl; [done|]. by rewrite IH. }
  rewrite !Happ in Heq. apply app_inv_tail in Heq.
  by rewrite <- (string_of_list_ascii_of_string s1),
             <- (string_of_list_ascii_of_string s2), Heq.
Qed.

Lemma historyKey_injective s1 s2 : historyKey s1 = historyKey s2 -> s1 = s2.
Proof.
  unfold historyKey. intros Heq.
  apply (string_app_inv_tail _ _ ":history").
  cbn in Heq. by injection Heq.
Qed.

Lemma searchKey_injective q1 q2 : searchKey q1 = searchKey q2 -> q1 = q2.
Proof.
  unfold searchKey. intros Heq. cbn in Heq.
  apply Fallback.toBase64_injective. by injection Heq.
Qed.

(** *** What the client getters touch *)

Lemma getRedisClient_store env construct probe w key :
  key <> "healthcheck"%string ->
  store (snd (getRedisClient env construct probe w)) !! key = store w !! key.
Proof.
  intros Hkey. unfold getRedisClient.
  destruct (redisDisabled (state w)); [done|].
  destruct (redisClient (state w)); [done|].
  destruct (present (KV_REST_API_URL env)); [|done].
  destruct (present (KV_REST_API_TOKEN env)); [|done].
  destruct construct; [|done]. destruct probe; [|done].
  cbn [snd store log setStore setState]. by rewrite lookup_insert_ne.
Qed.

Lemma getReadOnlyRedisClient_store env construct w :
  store (snd (getReadOnlyRedisClient env construct w)) = store w /\
  redisClient (state (snd (getReadOnlyRedisClient env construct w)))
  = redisClient (state w).
Proof.
  unfold getReadOnlyRedisClient.
  destruct (redisDisabled (state w)); [done|].
  destruct (readOnlyRedisClient (state w)); [done|].
  destruct (present (KV_REST_API_URL env)); [|done].
  destruct (match present (KV_REST_API_READ_ONLY_TOKEN env) with
            | Some t => Some t
            | None => present (KV_REST_API_TOKEN env)
            end); [|done].
  by destruct construct.
Qed.

Lemma getRedisClient_sessionLog env construct probe w sessionId :
  sessionLog (snd (getRedisClient env construct probe w)) sessionId
  = sessionLog w sessionId.
Proof.
  unfold sessionLog.
  by rewrite getRedisClient_store by apply historyKey_not_healthcheck.
Qed.

(** *** Reading and writing a session *)

Lemma rpushCmd_sessionLog o sessionId item w w1 other :
  rpushCmd o (historyKey sessionId) item w = Some w1 ->
  sessionLog w1 sessionId = sessionLog w sessionId ++ [item] /\
  (other <> sessionId -> sessionLog w1 other = sessionLog w other) /\
  state w1 = state w.
Proof.
  unfold rpushCmd, sessionLog. destruct o; [|done].
  destruct (store w !! historyKey sessionId) as [[t|items]|] eqn:Hget;
    [done| |]; intros [= <-]; cbn [store setStore state];
    rewrite lookup_insert_eq; (split; [done|]); (split; [|done]);
    intros Hne; rewrite lookup_insert_ne; try done;
    intros Heq; by apply historyKey_injective in Heq.
Qed.

Lemma ltrimCmd_sessionLog o sessionId w w2 other :
  ltrimCmd o (historyKey sessionId) (-50) (-1) w = Some w2 ->
  sessionLog w2 sessionId
  = skipn (length (sessionLog w sessionId) - 50) (sessionLog w sessionId) /\
  (other <> sessionId -> sessionLog w2 other = sessionLog w other) /\
  state w2 = state w.
Proof.
  unfold ltrimCmd, sessionLog. destruct o; [|done].
  destruct (store w !! historyKey sessionId) as [[t|items]|] eqn:Hget;
    [done| |].
  - rewrite ltrim_last_50.
    destruct (skipn (length items - 50) items) as [|x kept] eqn:Hk;
      intros [= <-]; cbn [store setStore state].
    + rewrite lookup_delete_eq. split; [done|]. split; [|done].
      intros Hne. rewrite lookup_delete_ne; [done|].
      intros Heq. by apply historyKey_injective in Heq.
    + rewrite lookup_insert_eq. split; [done|]. split; [|done].
      intros Hne. rewrite lookup_insert_ne; [done|].
      intros Heq. by apply historyKey_injective in Heq.
  - intros [= <-]. rewrite Hget. done.
Qed.

(** What a completed append leaves in the store. *)
Lemma addMessageToSession_Stored_log
    env construct probe push expire trim sessionId message w w' :
  addMessageToSession env construct probe push expire trim sessionId message w
  = (Stored, w') ->
  sessionLog w' sessionId
  = skipn (length (sessionLog w sessionId) + 1 - 50)
      (sessionLog w sessionId ++ [Wellformed message]).
Proof.
  unfold addMessageToSession.
  pose proof (getRedisClient_sessionLog env construct probe w sessionId)
    as Hlog0.
  destruct (getRedisClient env construct probe w) as [[client|] w0]; [|done].
  cbn [snd] in Hlog0.
  destruct (rpushCmd push _ _ w0) as [w1|] eqn:Hpush; [|done].
  destruct expire; [|done].
  destruct (ltrimCmd trim _ _ _ w1) as [w2|] eqn:Htrim; [|done].
  intros [= <-].
  apply (rpushCmd_sessionLog _ _ _ _ _ sessionId) in Hpush as (Hpush & _ & _).
  apply (ltrimCmd_sessionLog _ _ _ _ sessionId) in Htrim as (Htrim & _ & _).
  rewrite Htrim, Hpush, Hlog0, length_app. reflexivity.
Qed.

Lemma parseHistory_length parseString l :
  (length (parseHistory parseString l) <= length l)%nat.
Proof.
  unfold parseHistory. etransitivity; [apply filter_length_le|].
  by rewrite length_map.
Qed.

(** What a read returns when the read client is there and [LRANGE] goes
    through. *)
Lemma getSessionHistory_reads parseString env construct sessionId w :
  fst (getReadOnlyRedisClient env construct w) <> None ->
  fst (getSessionHistory parseString env construct Succeeds sessionId w)
  = parseHistory parseString (sessionLog w sessionId).
Proof.
  intros Hclient. unfold getSessionHistory, sessionLog.
  pose proof (getReadOnlyRedisClient_store env construct w) as [Hstore _].
  destruct (getReadOnlyRedisClient env construct w) as [[client|] w1];
    [|done].
  cbn [snd] in Hstore. rewrite Hstore.
  destruct (store w !! historyKey sessionId) as [[t|items]|]; try done.
  cbn [fst]. by rewrite lrange_all.
Qed.

(** An entry that holds an object gives nothing when it is read: the
    client hands the object over and the second [JSON.parse] throws. *)
Definition holdsObject (item : Text Json) : Prop :=
  exists fields, item = Wellformed (JObject fields).

Lemma parseHistory_of_objects parseString l :
  Forall holdsObject l -> parseHistory parseString l = [].
Proof.
  induction 1 as [|item l [fields ->] _ IH]; [done|].
  rewrite parseHistory_cons, IH. reflexivity.
Qed.

(** X18. A message appended by a call that completed is the last entry of
    the stored log, which then holds at most 50 entries.  A read that
    follows gives what the stored entries give one by one, in their
    order.  A message that is an object is not among them: its entry
    gives nothing, and a log that holds only objects, as the chat route
    writes it, is read back as the empty history. *)
Theorem appended_object_is_stored_but_not_read_back
    (parseString : Json -> option Json) (env env' : Env)
    (construct probe push expire trim construct' : Outcome)
    (sessionId : string) (message : Json) (w w' : World) :
  addMessageToSession env construct probe push expire trim sessionId message w
  = (Stored, w') ->
  fst (getReadOnlyRedisClient env' construct' w') <> None ->
  exists earlier,
    sessionLog w' sessionId = earlier ++ [Wellformed message] /\
    (length (sessionLog w' sessionId) <= 50)%nat /\
    fst (getSessionHistory parseString env' construct' Succeeds sessionId w')
    = parseHistory parseString earlier
      ++ parseHistory parseString [Wellformed message] /\
    (forall fields, message = JObject fields ->
       fst (getSessionHistory parseString env' construct' Succeeds
              sessionId w')
       = parseHistory parseString earlier) /\
    (Forall holdsObject (sessionLog w' sessionId) ->
     fst (getSessionHistory parseString env' construct' Succeeds sessionId w')
     = []).
Proof.
  intros Hadd Hread.
  rewrite (getSessionHistory_reads parseString _ _ _ _ Hread).
  pose proof (addMessageToSession_Stored_log _ _ _ _ _ _ _ _ _ _ Hadd) as Hlog.
  set (old := sessionLog w sessionId) in *.
  assert (Hsplit : skipn (length old + 1 - 50) (old ++ [Wellformed message])
                   = skipn (length old + 1 - 50) old ++ [Wellformed message]).
  { rewrite skipn_app.
    replace (length old + 1 - 50 - length old)%nat with 0%nat by lia.
    reflexivity. }
  rewrite Hsplit in Hlog.
  exists (skipn (length old + 1 - 50) old).
  split; [exact Hlog|]. rewrite Hlog.
  split; [rewrite length_app, length_skipn; cbn [length]; lia|].
  split; [apply parseHistory_app|]. split.
  - intros fields ->. rewrite parseHistory_app. apply app_nil_r.
  - apply parseHistory_of_objects.
Qed.

(** A session of the chat: every entry is a message object. *)
Definition userMessage : Json :=
  JObject [("role", JString "user"); ("content", JString "hello")].

Definition chatSession : World :=
  setStore {[ historyKey "s1" := VList (repeat (Wellformed userMessage) 60) ]}
    freshWorld.

Definition chatAfterAppend : World :=
  snd (addMessageToSession configuredEnv Succeeds Succeeds Succeeds Succeeds
         Succeeds "s1" userMessage chatSession).

Lemma appended_object_is_stored_but_not_read_back_witness :
  exists earlier,
    sessionLog chatAfterAppend "s1" = earlier ++ [Wellformed userMessage] /\
    (length (sessionLog chatAfterAppend "s1") <= 50)%nat /\
    fst (getSessionHistory noStrings configuredEnv Succeeds Succeeds "s1"
           chatAfterAppend)
    = parseHistory noStrings earlier.
Proof.
  destruct (appended_object_is_stored_but_not_read_back noStrings
              configuredEnv configuredEnv Succeeds Succeeds Succeeds Succeeds
              Succeeds Succeeds "s1" userMessage chatSession chatAfterAppend)
    as (earlier & Hlog & Hlen & _ & Hobject & _).
  - vm_compute. reflexivity.
  - vm_compute. discriminate.
  - exists earlier. split; [exact Hlog|]. split; [exact Hlen|].
    exact (Hobject _ eq_refl).
Defined.

(** *** Clearing *)

Lemma sessionLog_log line w sessionId :
  sessionLog (log line w) sessionId = sessionLog w sessionId.
Proof. reflexivity. Qed.

Lemma getSessionHistory_absent parseString env construct range sessionId w :
  store w !! historyKey sessionId = None ->
  fst (getSessionHistory parseString env construct range sessionId w) = [].
Proof.
  intros Hnone. unfold getSessionHistory.
  pose proof (getReadOnlyRedisClient_store env construct w) as [Hstore _].
  destruct (getReadOnlyRedisClient env construct w) as [[client|] w1];
    [|done].
  cbn [snd] in Hstore. rewrite Hstore, Hnone. by destruct range.
Qed.

(** X19. [clearSession] answers [true] on every path.  It leaves the logs of
    the other sessions as they are.  When the client is there and [DEL]
    goes through, the log of its own session is removed, so that every
    later read of the session returns the empty history; otherwise,
    when there is no client or [DEL] throws, the log is left as it
    was. *)
Theorem clearSession_always_reports_success
    (env : Env) (construct probe del : Outcome) (sessionId : string)
    (w : World) :
  let '(success, w', _) :=
    clearSession env construct probe del sessionId w in
  success = true /\
  (forall other, other <> sessionId ->
     sessionLog w' other = sessionLog w other) /\
  (fst (getRedisClient env construct probe w) <> None -> del = Succeeds ->
   sessionLog w' sessionId = [] /\
   store w' !! historyKey sessionId = None /\
   forall parseString env' construct' range,
     fst (getSessionHistory parseString env' construct' range sessionId w')
     = []) /\
  (fst (getRedisClient env construct probe w) = None \/ del <> Succeeds ->
   sessionLog w' sessionId = sessionLog w sessionId /\
   store w' !! historyKey sessionId = store w !! historyKey sessionId).
Proof.
  unfold clearSession.
  pose proof (fun sid => getRedisClient_sessionLog env construct probe w sid)
    as Hlog.
  pose proof (getRedisClient_store env construct probe w
                (historyKey sessionId) (historyKey_not_healthcheck _))
    as Hstore.
  destruct (getRedisClient env construct probe w) as [[client|] w0];
    cbn [snd fst] in *.
  - destruct del as [|message].
    + assert (Hgone : store (setStore (delete (historyKey sessionId) (store w0))
                               w0) !! historyKey sessionId = None)
        by (cbn [store setStore]; apply lookup_delete_eq).
      assert (Hempty : sessionLog
                (setStore (delete (historyKey sessionId) (store w0)) w0)
                sessionId = []) by (unfold sessionLog; by rewrite Hgone).
      split; [done|]. split; [|split].
      * intros other Hne. rewrite <- Hlog. unfold sessionLog.
        cbn [store setStore]. rewrite lookup_delete_ne; [done|].
        intros Heq. by apply historyKey_injective in Heq.
      * intros _ _. split; [exact Hempty|]. split; [exact Hgone|].
        intros parseString env' construct' range.
        by apply getSessionHistory_absent.
      * intros [Hnone|Hdel]; done.
    + split; [done|]. split; [intros; apply Hlog|].
      split; [intros _ [=]|]. intros _. split; [apply Hlog|exact Hstore].
  - split; [done|]. split; [intros; apply Hlog|].
    split; [intros []; done|]. intros _. split; [apply Hlog|exact Hstore].
Qed.

(** *** Sessions do not interfere *)

(** X20. Appending to a session or clearing it leaves the log of every other
    session as it is, whatever happens to the commands; and writing a
    search result to the cache leaves every session log as it is. *)
Theorem sessions_are_independent
    (env : Env) (construct probe push expire trim del set : Outcome)
    (sessionId other : string) (message : Json)
    (query : string) (results : Json) (ttl : Z) (w : World) :
  other <> sessionId ->
  sessionLog
    (snd (addMessageToSession env construct probe push expire trim
            sessionId message w)) other
  = sessionLog w other /\
  sessionLog
    (snd (fst (clearSession env construct probe del sessionId w))) other
  = sessionLog w other /\
  sessionLog
    (cacheSearchResults env construct probe set query results ttl w) sessionId
  = sessionLog w sessionId.
Proof.
  intros Hne.
  pose proof (fun sid => getRedisClient_sessionLog env construct probe w sid)
    as Hlog.
  split; [|split].
  - unfold addMessageToSession.
    destruct (getRedisClient env construct probe w) as [[client|] w0];
      cbn [snd] in *; [|by rewrite sessionLog_log].
    destruct (rpushCmd push _ _ w0) as [w1|] eqn:Hpush;
      [|cbn [snd]; by rewrite sessionLog_log].
    apply (rpushCmd_sessionLog _ _ _ _ _ other) in Hpush as (_ & Hpush & _).
    destruct expire; [|cbn [snd]; rewrite sessionLog_log, Hpush; auto].
    destruct (ltrimCmd trim _ _ _ w1) as [w2|] eqn:Htrim;
      [|cbn [snd]; rewrite sessionLog_log, Hpush; auto].
    apply (ltrimCmd_sessionLog _ _ _ _ other) in Htrim as (_ & Htrim & _).
    cbn [snd]. rewrite Htrim, Hpush; auto.
  - unfold clearSession.
    destruct (getRedisClient env construct probe w) as [[client|] w0];
      cbn [snd fst] in *; [|done].
    destruct del; cbn [snd fst]; [|done].
    rewrite <- Hlog. unfold sessionLog. cbn [store setStore].
    rewrite lookup_delete_ne; [done|].
    intros Heq. by apply historyKey_injective in Heq.
  - unfold cacheSearchResults.
    destruct (getRedisClient env construct probe w) as [[client|] w0];
      cbn [snd] in *; [|done].
    destruct set as [|msg].
    + rewrite <- Hlog. unfold sessionLog. cbn [store setStore].
      rewrite lookup_insert_ne; [done|].
      intros Heq. symmetry in Heq. by apply historyKey_not_searchKey in Heq.
    + rewrite <- Hlog. unfold warnOnce, sessionLog.
      destruct (authError msg); [|done]. cbn [redisErrorLogged state setState disableWrite].
      by destruct (redisErrorLogged (state w0)).
Qed.

Lemma sessions_are_independent_witness :
  sessionLog
    (snd (addMessageToSession configuredEnv Succeeds Succeeds Succeeds
            Succeeds Succeeds "s2" (JString "bye") longSession)) "s1"
  = sessionLog longSession "s1".
Proof.
  apply (sessions_are_independent configuredEnv Succeeds Succeeds Succeeds
           Succeeds Succeeds Succeeds Succeeds "s2" "s1" (JString "bye")
           "" JNull 0 longSession).
  discriminate.
Defined.

(** *** Reads do not write *)

(** X21. Reading a session or the cache never changes the remote store and
    never builds the write client, however the call ends. *)
Theorem reads_leave_the_store_alone
    (parseString : Json -> option Json)
    (env : Env) (construct range get : Outcome) (sessionId query : string)
    (w : World) :
  let afterHistory :=
    snd (getSessionHistory parseString env construct range sessionId w) in
  let afterCache :=
    snd (getCachedSearchResults parseString env construct get query w) in
  store afterHistory = store w /\
  redisClient (state afterHistory) = redisClient (state w) /\
  store afterCache = store w /\
  redisClient (state afterCache) = redisClient (state w).
Proof.
  cbv zeta. unfold getSessionHistory, getCachedSearchResults.
  pose proof (getReadOnlyRedisClient_store env construct w) as [Hstore Hwc].
  destruct (getReadOnlyRedisClient env construct w) as [[client|] w1];
    cbn [snd] in *; [|done].
  split; [|split; [|split]].
  - destruct range; [|done].
    by destruct (store w1 !! historyKey sessionId) as [[?|?]|].
  - destruct range; [|done].
    by destruct (store w1 !! historyKey sessionId) as [[?|?]|].
  - destruct get as [|msg].
    + by destruct (store w1 !! searchKey query) as [[?|?]|].
    + unfold warnOnce. destruct (authError msg); [|done].
      cbn [redisErrorLogged state setState disableRead].
      by destruct (redisErrorLogged (state w1)).
  - destruct get as [|msg].
    + by destruct (store w1 !! searchKey query) as [[?|?]|].
    + unfold warnOnce. destruct (authError msg); [|done].
      cbn [redisErrorLogged state setState disableRead].
      by destruct (redisErrorLogged (state w1)).
Qed.

(** *** The search cache *)

(** X22. A search result written to the cache is stored under the key of
    its query, and no read gives it back.  The results are an array of
    objects, or the empty array; the client hands the stored array over
    already parsed, the second [JSON.parse] of [getJson] throws on it, and
    [getCachedSearchResults] answers [null], as it does when nothing was
    stored.  (The expiry of the entry is outside the model.) *)
Theorem cached_results_are_not_read_back
    (parseString : Json -> option Json) (env env' : Env)
    (construct probe construct' get : Outcome)
    (query : string) (items : list Json) (ttl : Z) (w : World) :
  fst (getRedisClient env construct probe w) <> None ->
  items = [] \/ (exists fields rest, items = JObject fields :: rest) ->
  store (cacheSearchResults env construct probe Succeeds query
           (JArray items) ttl w) !! searchKey query
  = Some (VString (Wellformed (JArray items))) /\
  fst (getCachedSearchResults parseString env' construct' get query
         (cacheSearchResults env construct probe Succeeds query
            (JArray items) ttl w))
  = None.
Proof.
  unfold cacheSearchResults.
  destruct (getRedisClient env construct probe w) as [[client|] w0];
    cbn [fst]; [intros _|done].
  set (w1 := setStore _ w0). intros Hitems.
  assert (Hstored : store w1 !! searchKey query
                    = Some (VString (Wellformed (JArray items))))
    by (unfold w1; cbn [store setStore]; by rewrite lookup_insert_eq).
  split; [exact Hstored|].
  unfold getCachedSearchResults.
  pose proof (getReadOnlyRedisClient_store env' construct' w1) as [Hstore _].
  destruct (getReadOnlyRedisClient env' construct' w1) as [[client'|] w2];
    cbn [fst snd] in *; [|done].
  rewrite Hstore, Hstored.
  destruct get as [|message]; [|by destruct (authError message)].
  cbn [fst]. unfold getJson, parseAgain, deserialize.
  destruct Hitems as [->|(fields & rest & ->)]; reflexivity.
Qed.

Definition foundChunks : Json :=
  JArray [JObject [("id", JString "a-0"); ("text", JString "rates rise")]].

Lemma cached_results_are_not_read_back_witness :
  store (cacheSearchResults configuredEnv Succeeds Succeeds Succeeds
           "markets" foundChunks 300 freshWorld) !! searchKey "markets"
  = Some (VString (Wellformed foundChunks)) /\
  fst (getCachedSearchResults noStrings configuredEnv Succeeds Succeeds
         "markets"
         (cacheSearchResults configuredEnv Succeeds Succeeds Succeeds
            "markets" foundChunks 300 freshWorld))
  = None.
Proof.
  apply (cached_results_are_not_read_back noStrings configuredEnv
           configuredEnv Succeeds Succeeds Succeeds Succeeds "markets"
           [JObject [("id", JString "a-0"); ("text", JString "rates rise")]]
           300 freshWorld).
  - vm_compute. discriminate.
  - right. eexists _, _. reflexivity.
Defined.

(** X23. Two queries have the same cache key only when they are the same text,
    and writing the result of one query leaves the entry of every other
    query as it is. *)
Theorem cache_entries_are_per_query :
  (forall q1 q2, searchKey q1 = searchKey q2 -> q1 = q2) /\
  (forall env construct probe set query results ttl w other,
     other <> query ->
     store (cacheSearchResults env construct probe set query results ttl w)
       !! searchKey other
     = store w !! searchKey other).
Proof.
  split; [exact searchKey_injective|].
  intros env construct probe set query results ttl w other Hne.
  unfold cacheSearchResults.
  pose proof (getRedisClient_store env construct probe w (searchKey other)
                (searchKey_not_healthcheck other)) as Hstore.
  destruct (getRedisClient env construct probe w) as [[client|] w0];
    cbn [snd] in *; [|done].
  destruct set as [|msg].
  - cbn [store setStore]. rewrite lookup_insert_ne; [done|].
    intros Heq. by apply searchKey_injective in Heq.
  - unfold warnOnce. destruct (authError msg); [|done].
    cbn [redisErrorLogged state setState disableWrite].
    by destruct (redisErrorLogged (state w0)).
Qed.

(** *** Which failures disable the module *)

Lemma getRedisClient_enabled env construct probe w :
  fst (getRedisClient env construct probe w) <> None ->
  redisDisabled (state (snd (getRedisClient env construct probe w))) = false.
Proof.
  unfold getRedisClient.
  destruct (redisDisabled (state w)) eqn:Hoff; [done|].
  destruct (redisClient (state w)); [done|].
  destruct (present (KV_REST_API_URL env)); [|done].
  destruct (present (KV_REST_API_TOKEN env)); [|done].
  destruct construct; [|done]. by destruct probe.
Qed.

Lemma getReadOnlyRedisClient_enabled env construct w :
  fst (getReadOnlyRedisClient env construct w) <> None ->
  redisDisabled (state (snd (getReadOnlyRedisClient env construct w)))
  = false.
Proof.
  unfold getReadOnlyRedisClient.
  destruct (redisDisabled (state w)) eqn:Hoff; [done|].
  destruct (readOnlyRedisClient (state w)); [done|].
  destruct (present (KV_REST_API_URL env)); [|done].
  destruct (match present (KV_REST_API_READ_ONLY_TOKEN env) with
            | Some t => Some t
            | None => present (KV_REST_API_TOKEN env)
            end); [|done].
  by destruct construct.
Qed.

Lemma rpushCmd_frame o key item w w1 :
  rpushCmd o key item w = Some w1 ->
  state w1 = state w /\ console w1 = console w.
Proof.
  unfold rpushCmd. destruct o; [|done].
  by destruct (store w !! key) as [[?|?]|]; intros [= <-].
Qed.

Lemma ltrimCmd_frame o key start stop w w2 :
  ltrimCmd o key start stop w = Some w2 ->
  state w2 = state w /\ console w2 = console w.
Proof.
  unfold ltrimCmd. destruct o; [|done].
  destruct (store w !! key) as [[?|items]|]; [done| |by intros [= <-]].
  by destruct (ltrim start stop items); intros [= <-].
Qed.

Lemma addMessageToSession_state
    env construct probe push expire trim sessionId message w :
  state (snd (addMessageToSession env construct probe push expire trim
                sessionId message w))
  = state (snd (getRedisClient env construct probe w)) /\
  List.filter isAuthWarning
    (console (snd (addMessageToSession env construct probe push expire trim
                     sessionId message w)))
  = List.filter isAuthWarning
      (console (snd (getRedisClient env construct probe w))).
Proof.
  unfold addMessageToSession.
  destruct (getRedisClient env construct probe w) as [[client|] w0];
    cbn [snd].
  2:{ cbn [state console log]. rewrite List.filter_app. cbn.
      by rewrite app_nil_r. }
  destruct (rpushCmd push _ _ w0) as [w1|] eqn:Hpush.
  2:{ cbn [snd state console log]. rewrite List.filter_app. cbn.
      by rewrite app_nil_r. }
  apply rpushCmd_frame in Hpush as [Hst1 Hco1].
  destruct expire.
  2:{ cbn [snd state console log]. rewrite List.filter_app, Hst1, Hco1. cbn.
      by rewrite app_nil_r. }
  destruct (ltrimCmd trim _ _ _ w1) as [w2|] eqn:Htrim.
  2:{ cbn [snd state console log]. rewrite List.filter_app, Hst1, Hco1. cbn.
      by rewrite app_nil_r. }
  apply ltrimCmd_frame in Htrim as [Hst2 Hco2].
  cbn [snd]. by rewrite Hst2, Hco2, Hst1, Hco1.
Qed.

(** X24. When a cache command throws, the module is disabled exactly when the
    message names an authorization failure ([WRONGPASS] or
    [Unauthorized]); the session functions do not look at the message,
    and a failed append leaves the module enabled whatever it says. *)
Theorem only_cache_authorization_failures_disable
    (parseString : Json -> option Json)
    (env : Env) (construct probe : Outcome) (message : string)
    (query : string) (results : Json) (ttl : Z)
    (push expire trim : Outcome) (sessionId : string) (item : Json)
    (w : World) :
  (fst (getRedisClient env construct probe w) <> None ->
   redisDisabled
     (state (cacheSearchResults env construct probe (Throws message)
               query results ttl w))
   = authError message /\
   redisDisabled
     (state (snd (addMessageToSession env construct probe push expire trim
                    sessionId item w)))
   = false) /\
  (fst (getReadOnlyRedisClient env construct w) <> None ->
   redisDisabled
     (state (snd (getCachedSearchResults parseString env construct
                    (Throws message) query w)))
   = authError message).
Proof.
  split.
  - intros Hclient.
    pose proof (getRedisClient_enabled env construct probe w Hclient) as Hon.
    split.
    + unfold cacheSearchResults.
      destruct (getRedisClient env construct probe w) as [[client|] w0];
        cbn [fst snd] in *; [|done].
      unfold warnOnce. destruct (authError message); [|done].
      cbn [redisErrorLogged state setState disableWrite].
      by destruct (redisErrorLogged (state w0)).
    + by rewrite (proj1 (addMessageToSession_state _ _ _ _ _ _ _ _ _)).
  - intros Hclient.
    pose proof (getReadOnlyRedisClient_enabled env construct w Hclient)
      as Hon.
    unfold getCachedSearchResults.
    destruct (getReadOnlyRedisClient env construct w) as [[client|] w0];
      cbn [fst snd] in *; [|done].
    unfold warnOnce. destruct (authError message); [|done].
    cbn [snd redisErrorLogged state setState disableRead].
    by destruct (redisErrorLogged (state w0)).
Qed.

(** *** Runs of calls *)

Lemma step_disabled w c :
  redisDisabled (state w) = true ->
  state (step w c) = state w /\ store (step w c) = store w.
Proof.
  intros Hoff.
  destruct c; cbn [step];
    unfold addMessageToSession, getSessionHistory, clearSession,
      cacheSearchResults, getCachedSearchResults;
    rewrite ?(getRedisClient_disabled _ _ _ _ Hoff),
      ?(getReadOnlyRedisClient_disabled _ _ _ Hoff); done.
Qed.

(** X25. Once the module is disabled it stays disabled: no run of calls,
    whatever the environment and the outcomes, changes the module state
    or the remote store. *)
Theorem disabled_module_stays_disabled (calls : list Call) (w : World) :
  redisDisabled (state w) = true ->
  state (run calls w) = state w /\ store (run calls w) = store w.
Proof.
  unfold run. revert w.
  induction calls as [|c calls IH]; intros w Hoff; [done|].
  cbn [fold_left].
  destruct (step_disabled w c Hoff) as [Hst Hsto].
  destruct (IH (step w c)) as [Hst' Hsto']; [by rewrite Hst|].
  by rewrite Hst', Hsto', Hst, Hsto.
Qed.

Lemma disabled_module_stays_disabled_witness :
  state (run [AddMessage configuredEnv Succeeds Succeeds Succeeds Succeeds
                Succeeds "s1" (JString "hello");
              ReadHistory noStrings configuredEnv Succeeds Succeeds "s1";
              CacheResults configuredEnv Succeeds Succeeds Succeeds
                "markets" JNull 300]
           {| state := initialState true; store := ∅; console := [] |})
  = initialState true /\
  store (run [AddMessage configuredEnv Succeeds Succeeds Succeeds Succeeds
                Succeeds "s1" (JString "hello");
              ReadHistory noStrings configuredEnv Succeeds Succeeds "s1";
              CacheResults configuredEnv Succeeds Succeeds Succeeds
                "markets" JNull 300]
           {| state := initialState true; store := ∅; console := [] |})
  = ∅.
Proof.
  apply (disabled_module_stays_disabled _
           {| state := initialState true; store := ∅; console := [] |}).
  reflexivity.
Defined.

(** The invariant behind the single warning: no authorization warning
    has been written while the flag is down, at most one has been written
    at all, and one has been written only when the module is disabled. *)
Definition quiet (w : World) : Prop :=
  (redisErrorLogged (state w) = false -> authWarnings w = 0%nat) /\
  (authWarnings w <= 1)%nat /\
  (authWarnings w = 1%nat -> redisDisabled (state w) = true).

Lemma quiet_frame w w' :
  List.filter isAuthWarning (console w')
  = List.filter isAuthWarning (console w) ->
  redisErrorLogged (state w') = redisErrorLogged (state w) ->
  (redisDisabled (state w) = true -> redisDisabled (state w') = true) ->
  quiet w -> quiet w'.
Proof.
  unfold quiet, authWarnings. intros -> -> Hoff (H0 & H1 & H2).
  split; [done|]. split; [done|]. auto.
Qed.

Lemma filter_snoc_other line (l : list LogLine) :
  isAuthWarning line = false ->
  List.filter isAuthWarning (l ++ [line]) = List.filter isAuthWarning l.
Proof.
  intros Hline. rewrite List.filter_app. cbn. by rewrite Hline, app_nil_r.
Qed.

Lemma getRedisClient_quiet env construct probe w :
  quiet w -> quiet (snd (getRedisClient env construct probe w)).
Proof.
  apply quiet_frame; unfold getRedisClient;
    destruct (redisDisabled (state w)) eqn:Hoff; try done;
    destruct (redisClient (state w)); try done;
    destruct (present (KV_REST_API_URL env));
    destruct (present (KV_REST_API_TOKEN env));
    destruct construct; destruct probe;
    cbn [snd state console log setState setStore redisErrorLogged
         disableWrite];
    rewrite ?filter_snoc_other by done; done.
Qed.

Lemma getReadOnlyRedisClient_quiet env construct w :
  quiet w -> quiet (snd (getReadOnlyRedisClient env construct w)).
Proof.
  apply quiet_frame; unfold getReadOnlyRedisClient;
    destruct (redisDisabled (state w)) eqn:Hoff; try done;
    destruct (readOnlyRedisClient (state w)); try done;
    destruct (present (KV_REST_API_URL env));
    destruct (match present (KV_REST_API_READ_ONLY_TOKEN env) with
              | Some t => Some t
              | None => present (KV_REST_API_TOKEN env)
              end);
    destruct construct;
    cbn [snd state console log setState setStore redisErrorLogged
         disableRead];
    rewrite ?filter_snoc_other by done; done.
Qed.

(** With the module enabled, nothing has been written yet. *)
Lemma quiet_enabled w :
  quiet w -> redisDisabled (state w) = false -> authWarnings w = 0%nat.
Proof.
  intros (_ & H1 & H2) Hon.
  destruct (authWarnings w) as [|[|n]]; [done| |lia].
  rewrite H2 in Hon; done.
Qed.

Lemma warnOnce_quiet line st w :
  isAuthWarning line = true ->
  redisDisabled st = true ->
  redisErrorLogged st = redisErrorLogged (state w) ->
  quiet w -> redisDisabled (state w) = false ->
  quiet (warnOnce line (setState st w)).
Proof.
  intros Hline Hoff Hflag Hq Hon.
  pose proof (quiet_enabled w Hq Hon) as Hzero.
  unfold warnOnce, quiet, authWarnings in *.
  cbn [state setState]. rewrite Hflag.
  destruct (redisErrorLogged (state w)) eqn:Hlogged.
  - cbn [state console setState]. rewrite Hzero.
    split; [done|]. split; [lia|done].
  - cbn [state console setState log markErrorLogged redisErrorLogged
         redisDisabled].
    rewrite List.filter_app, length_app, Hzero. cbn. rewrite Hline. cbn.
    split; [done|]. split; [lia|done].
Qed.

Lemma step_quiet w c : quiet w -> quiet (step w c).
Proof.
  intros Hq. destruct c; cbn [step].
  - pose proof (addMessageToSession_state env construct probe push expire
                  trim sessionId message w) as [Hst Hco].
    eapply quiet_frame;
      [exact Hco|by rewrite Hst|by rewrite Hst|by apply getRedisClient_quiet].
  - unfold getSessionHistory.
    pose proof (getReadOnlyRedisClient_quiet env construct w Hq) as Hq1.
    destruct (getReadOnlyRedisClient env construct w) as [[client|] w1];
      cbn [snd] in *.
    + destruct range; [|by eapply quiet_frame; [apply filter_snoc_other| | |]].
      destruct (store w1 !! historyKey sessionId) as [[?|?]|]; cbn [snd];
        try done.
      by eapply quiet_frame; [apply filter_snoc_other| | |].
    + by eapply quiet_frame; [apply filter_snoc_other| | |].
  - unfold clearSession.
    pose proof (getRedisClient_quiet env construct probe w Hq) as Hq1.
    destruct (getRedisClient env construct probe w) as [[client|] w1];
      cbn [snd fst] in *; [|done].
    by destruct del.
  - unfold cacheSearchResults.
    pose proof (getRedisClient_quiet env construct probe w Hq) as Hq1.
    pose proof (getRedisClient_enabled env construct probe w) as Hon.
    destruct (getRedisClient env construct probe w) as [[client|] w1];
      cbn [snd fst] in *; [|done].
    destruct set as [|msg]; [done|].
    destruct (authError msg).
    + apply warnOnce_quiet; try done. by apply Hon.
    + by eapply quiet_frame; [apply filter_snoc_other| | |].
  - unfold getCachedSearchResults.
    pose proof (getReadOnlyRedisClient_quiet env construct w Hq) as Hq1.
    pose proof (getReadOnlyRedisClient_enabled env construct w) as Hon.
    destruct (getReadOnlyRedisClient env construct w) as [[client|] w1];
      cbn [snd fst] in *; [|done].
    destruct get as [|msg].
    + destruct (store w1 !! searchKey query) as [[?|?]|]; cbn [snd];
        try done.
      by eapply quiet_frame; [apply filter_snoc_other| | |].
    + destruct (authError msg); cbn [snd].
      * apply warnOnce_quiet; try done. by apply Hon.
      * by eapply quiet_frame; [apply filter_snoc_other| | |].
Qed.

Lemma run_quiet calls w : quiet w -> quiet (run calls w).
Proof.
  unfold run. revert w.
  induction calls as [|c calls IH]; intros w Hq; [done|].
  cbn [fold_left]. by apply IH, step_quiet.
Qed.

(** X26. Starting with no authorization warning on the console and the flag
    down, a run of calls writes at most one authorization warning,
    whatever the outcomes of the commands; and when it has written one
    the module is disabled. *)
Theorem authorization_warning_written_at_most_once
    (calls : list Call) (w : World) :
  redisErrorLogged (state w) = false ->
  authWarnings w = 0%nat ->
  (authWarnings (run calls w) <= 1)%nat /\
  (authWarnings (run calls w) = 1%nat ->
   redisDisabled (state (run calls w)) = true).
Proof.
  intros Hflag Hzero.
  assert (Hq : quiet w).
  { unfold quiet. rewrite Hzero. split; [done|]. split; [lia|done]. }
  by destruct (run_quiet calls w Hq) as (_ & H1 & H2).
Qed.

Lemma authorization_warning_written_at_most_once_witness :
  (authWarnings
     (run [CacheResults configuredEnv Succeeds Succeeds
             (Throws "WRONGPASS invalid password") "markets" JNull 300;
           ReadCache noStrings configuredEnv Succeeds
             (Throws "Unauthorized") "markets";
           CacheResults configuredEnv Succeeds Succeeds
             (Throws "WRONGPASS invalid password") "markets" JNull 300]
        freshWorld) <= 1)%nat /\
  (authWarnings
     (run [CacheResults configuredEnv Succeeds Succeeds
             (Throws "WRONGPASS invalid password") "markets" JNull 300;
           ReadCache noStrings configuredEnv Succeeds
             (Throws "Unauthorized") "markets";
           CacheResults configuredEnv Succeeds Succeeds
             (Throws "WRONGPASS invalid password") "markets" JNull 300]
        freshWorld) = 1%nat ->
   redisDisabled
     (state
        (run [CacheResults configuredEnv Succeeds Succeeds
                (Throws "WRONGPASS invalid password") "markets" JNull 300;
              ReadCache noStrings configuredEnv Succeeds
                (Throws "Unauthorized") "markets";
              CacheResults configuredEnv Succeeds Succeeds
                (Throws "WRONGPASS invalid password") "markets" JNull 300]
           freshWorld)) = true).
Proof.
  apply (authorization_warning_written_at_most_once _ freshWorld);
    reflexivity.
Defined.

(** *** The routes *)

(** X27. [DELETE] answers a request that names a session with 200 and
    [Session cleared successfully], whatever the client and the [DEL]
    command do: its 500 [Failed to clear session] answer is never given.
    A request whose identifier is empty is answered with 400 and sends
    nothing. *)
Theorem DELETE_never_reports_a_failed_clear
    (params : option string) (env : Env) (construct probe del : Outcome)
    (w : World) :
  fst (DELETE params env construct probe del w)
  <> ErrorReply 500 "Failed to clear session" /\
  (forall sessionId, params = Some sessionId -> sessionId <> ""%string ->
     fst (DELETE params env construct probe del w)
     = ClearedReply "Session cleared successfully" sessionId) /\
  (params = Some ""%string ->
   DELETE params env construct probe del w
   = (ErrorReply 400 "Session ID is required", w)).
Proof.
  assert (Hclear : forall sessionId,
    fst (fst (clearSession env construct probe del sessionId w)) = true).
  { intros sessionId. unfold clearSession.
    destruct (getRedisClient env construct probe w) as [[client|] w0];
      [by destruct del|done]. }
  unfold DELETE. destruct params as [sessionId|].
  - destruct (String.eqb_spec sessionId "") as [->|Hne].
    + split; [done|]. split; [|done]. by intros ? [= <-].
    + specialize (Hclear sessionId).
      destruct (clearSession env construct probe del sessionId w)
        as [[success w'] lines].
      cbn [fst] in Hclear. subst success. cbn [fst].
      split; [done|]. split; [by intros ? [= <-]|]. by intros [= ->].
  - by repeat split.
Qed.

(** X28. [GET] answers a request that names a session with 200, the history
    read and its length.  The history holds no more entries than the
    stored log; it is empty, with count 0, when the module is disabled,
    when the read client cannot be built or when [LRANGE] throws: the
    route gives no error then. *)
Theorem GET_answers_with_the_history_or_nothing
    (parseString : Json -> option Json)
    (sessionId : string) (env : Env) (construct range : Outcome)
    (w : World) :
  sessionId <> ""%string ->
  (exists history,
     fst (GET parseString (Some sessionId) env construct range w)
     = HistoryReply sessionId history (length history) /\
     (history = parseHistory parseString (sessionLog w sessionId) \/ history = []) /\
     (length history <= length (sessionLog w sessionId))%nat) /\
  (redisDisabled (state w) = true \/
   fst (getReadOnlyRedisClient env construct w) = None \/
   range <> Succeeds ->
   fst (GET parseString (Some sessionId) env construct range w)
   = HistoryReply sessionId [] 0).
Proof.
  intros Hne. unfold GET.
  destruct (String.eqb_spec sessionId "") as [|_]; [done|].
  assert (Hcases :
    (fst (getSessionHistory parseString env construct range sessionId w)
     = parseHistory parseString (sessionLog w sessionId) \/
     fst (getSessionHistory parseString env construct range sessionId w) = []) /\
    (redisDisabled (state w) = true \/
     fst (getReadOnlyRedisClient env construct w) = None \/
     range <> Succeeds ->
     fst (getSessionHistory parseString env construct range sessionId w) = [])).
  { pose proof (getSessionHistory_reads parseString env construct sessionId w)
      as Hread.
    pose proof (getReadOnlyRedisClient_disabled env construct w) as Hoff.
    unfold getSessionHistory in *.
    destruct (getReadOnlyRedisClient env construct w) as [[client|] w1].
    - destruct range as [|msg].
      + split; [left; by apply Hread|].
        intros [Hd|[Hn|Hr]]; [by specialize (Hoff Hd)|done|done].
      + split; [by right|done].
    - split; [by right|done]. }
  destruct (getSessionHistory parseString env construct range sessionId w)
    as [history w']. cbn [fst] in *.
  destruct Hcases as [Hhist Hempty]. split.
  - exists history. split; [done|]. split; [done|].
    destruct Hhist as [->| ->]; [apply parseHistory_length|cbn; lia].
  - intros Hdeg. by rewrite (Hempty Hdeg).
Qed.

Lemma GET_answers_with_the_history_or_nothing_witness :
  fst (GET noStrings (Some "s1"%string) emptyEnv Succeeds Succeeds
         longSession)
  = HistoryReply "s1" [] 0.
Proof.
  apply (GET_answers_with_the_history_or_nothing noStrings "s1" emptyEnv
           Succeeds Succeeds longSession); [discriminate|].
  right. left. reflexivity.
Defined.

End Sessions.
